(** * Subway route data extraction: element classifier, stop graph, map

    A shallow embedding of [src/data_processing.py] and of
    [create_folium_map] from [src/data_visualization.py].

    - An Overpass element is a Python dict; it is a record here, and a key
      the payload may omit ([tags], [lat], [lon], [members]) is an option
      field.  Subscripting an absent key raises [KeyError].
    - Python dicts keyed by ids or tag names are finite maps ([gmap]).
    - Coordinates are JSON numbers; they are exact rationals ([Q]) here, so
      rounding of binary floating point is outside the model.
    - [networkx.Graph] is modelled after its adjacency representation:
      a dict of vertex attributes and a dict of neighbour sets.
    - A [gmap] is traversed in the order of its keys where Python
      traverses a dict in insertion order; the properties below are about
      sets, counts and sums and do not depend on that order. *)

From Stdlib Require Import QArith.
From stdpp Require Import gmap strings list fin_maps pretty.

#[local] Set Warnings "-clear-no-such-hyp".
Open Scope Z_scope.

(** ** Exceptions *)

Inductive exn :=
  | KeyError (key : string)
  | ValueError (msg : string).

Inductive result (A : Type) :=
  | Ok (a : A)
  | Raise (e : exn).
Arguments Ok {A} a.
Arguments Raise {A} e.

#[global] Instance result_ret : MRet result := λ A a, Ok a.
#[global] Instance result_bind : MBind result := λ A B k r,
  match r with
  | Ok a => k a
  | Raise e => Raise e
  end.

(** [d[key]] on a dict that may lack [key]. *)
Definition subscript {A} (key : string) (field : option A) : result A :=
  match field with
  | Some a => Ok a
  | None => Raise (KeyError key)
  end.

(** [d.get(key, default)] *)
Definition get (key : string) (d : gmap string string) (dflt : string) : string :=
  default dflt (d !! key).

(** ** Data model *)

(** A relation member: [{'type': ..., 'ref': ..., 'role': ...}]. *)
Record Member := {
  mem_ref : Z;
  mem_role : string
}.

(** A raw element of the payload's ['elements'] list. *)
Record Element := {
  el_type : string;
  el_id : Z;
  el_tags : option (gmap string string);
  el_lat : option Q;
  el_lon : option Q;
  el_members : option (list Member)
}.

(** The payload [{"elements": [...]}]. *)
Record OsmData := {
  elements_of : list Element
}.

(** ** Element classifier *)

(** ['tags' in element and 'route' in element['tags']] *)
Definition has_route_tag (element : Element) : bool :=
  match el_tags element with
  | Some tags => bool_decide (is_Some (tags !! "route"))
  | None => false
  end.

Fixpoint route_comprehension (l : list Element) : list Element :=
  match l with
  | [] => []
  | element :: rest =>
      if has_route_tag element
      then element :: route_comprehension rest
      else route_comprehension rest
  end.

Definition extract_route_elements (osm_data : OsmData) : list Element :=
  route_comprehension (elements_of osm_data).

(** [{element['id']: element for element in ... if element['type'] == 'node'}]:
    a later element with the same id replaces the earlier one. *)
Definition node_comprehension (l : list Element) : gmap Z Element :=
  foldl (λ d element,
           if bool_decide (el_type element = "node")
           then <[el_id element := element]> d
           else d) ∅ l.

Definition extract_node_elements (osm_data : OsmData) : gmap Z Element :=
  node_comprehension (elements_of osm_data).

(** ** Graph builder *)

(** [sub in s] on strings. *)
Fixpoint contains (sub s : string) : bool :=
  String.prefix sub s ||
  match s with
  | EmptyString => false
  | String _ s' => contains sub s'
  end.

(** Attribute dict of a vertex; the program only ever uses these keys. *)
Record NodeAttrs := {
  pos : option (Q * Q);
  name : option string;
  colour : option string
}.

Definition no_attrs : NodeAttrs :=
  {| pos := None; name := None; colour := None |}.

(** [old.update(new)] *)
Definition attrs_update (old new : NodeAttrs) : NodeAttrs :=
  {| pos := from_option Some (pos old) (pos new);
     name := from_option Some (name old) (name new);
     colour := from_option Some (colour old) (colour new) |}.

(** [networkx.Graph]: [_node] maps a vertex to its attribute dict, [_adj]
    maps a vertex to its neighbours. *)
Record Graph := {
  g_node : gmap Z NodeAttrs;
  g_adj : gmap Z (gset Z)
}.

(** [nx.Graph()] *)
Definition empty_graph : Graph := {| g_node := ∅; g_adj := ∅ |}.

(** [G.add_node(n, **attr)] *)
Definition add_node (G : Graph) (n : Z) (attr : NodeAttrs) : Graph :=
  match g_node G !! n with
  | None => {| g_node := <[n := attrs_update no_attrs attr]> (g_node G);
               g_adj := <[n := ∅]> (g_adj G) |}
  | Some d => {| g_node := <[n := attrs_update d attr]> (g_node G);
                 g_adj := g_adj G |}
  end.

(** The start of [G.add_edge]: an endpoint that is not yet a vertex is
    created with an empty attribute dict. *)
Definition ensure_node (G : Graph) (n : Z) : Graph :=
  match g_node G !! n with
  | None => {| g_node := <[n := no_attrs]> (g_node G);
               g_adj := <[n := ∅]> (g_adj G) |}
  | Some _ => G
  end.

Definition neighbours (G : Graph) (n : Z) : gset Z :=
  default ∅ (g_adj G !! n).

Definition link (adj : gmap Z (gset Z)) (u v : Z) : gmap Z (gset Z) :=
  <[u := {[v]} ∪ default ∅ (adj !! u)]> adj.

(** [G.add_edge(u, v)] *)
Definition add_edge (G : Graph) (u v : Z) : Graph :=
  let G' := ensure_node (ensure_node G u) v in
  {| g_node := g_node G';
     g_adj := link (link (g_adj G') u v) v u |}.

(** [G.has_edge(u, v)] *)
Definition has_edge (G : Graph) (u v : Z) : Prop := v ∈ neighbours G u.

(** [G.edges()]: every vertex in turn reports the neighbours that were not
    visited before it, so an undirected edge is reported once. *)
Fixpoint edges_from (l : list (Z * gset Z)) (seen : gset Z) : list (Z * Z) :=
  match l with
  | [] => []
  | (n, nbrs) :: rest =>
      ((λ nbr, (n, nbr)) <$> filter (λ nbr, nbr ∉ seen) (elements nbrs))
        ++ edges_from rest ({[n]} ∪ seen)
  end.

Definition edges (G : Graph) : list (Z * Z) :=
  edges_from (map_to_list (g_adj G)) ∅.

(** [nx.get_node_attributes(G, name)] *)
Definition get_node_attributes {A} (G : Graph) (field : NodeAttrs → option A)
  : gmap Z A :=
  omap field (g_node G).

(** [[member for member in members if 'stop' in member['role']]] *)
Fixpoint stop_comprehension (members : list Member) : list Member :=
  match members with
  | [] => []
  | member :: rest =>
      if contains "stop" (mem_role member)
      then member :: stop_comprehension rest
      else stop_comprehension rest
  end.

(** Body of the loop [for node in stop_nodes]. *)
Definition add_stop (route : Element) (node_elements : gmap Z Element)
    (G : Graph) (node : Member) : result Graph :=
  let ref := mem_ref node in
  match node_elements !! ref with
  | Some node_data =>
      ntags ← subscript "tags" (el_tags node_data);
      let name := get "name" ntags (pretty ref) in
      rtags ← subscript "tags" (el_tags route);
      let colour := get "colour" rtags "#808080" in
      lon ← subscript "lon" (el_lon node_data);
      lat ← subscript "lat" (el_lat node_data);
      Ok (add_node G ref {| pos := Some (lon, lat);
                            name := Some name;
                            colour := Some colour |})
  | None => Ok G
  end.

Fixpoint add_stops (route : Element) (node_elements : gmap Z Element)
    (G : Graph) (stop_nodes : list Member) : result Graph :=
  match stop_nodes with
  | [] => Ok G
  | node :: rest =>
      G' ← add_stop route node_elements G node;
      add_stops route node_elements G' rest
  end.

(** [range(n)] for a possibly negative [n]. *)
Definition range (n : Z) : list nat := seq 0 (Z.to_nat n).

(** Body of the loop [for i in range(len(stop_nodes) - 1)]; the two
    subscripts are within bounds for every [i] of that range. *)
Definition add_edge_at (stop_nodes : list Member) (G : Graph) (i : nat) : Graph :=
  match stop_nodes !! i, stop_nodes !! (i + 1)%nat with
  | Some a, Some b => add_edge G (mem_ref a) (mem_ref b)
  | _, _ => G
  end.

Definition add_edges (G : Graph) (stop_nodes : list Member) : Graph :=
  foldl (add_edge_at stop_nodes) G (range (Z.of_nat (length stop_nodes) - 1)).

(** Body of the loop [for route in route_elements]. *)
Definition process_route (node_elements : gmap Z Element) (G : Graph)
    (route : Element) : result Graph :=
  members ← subscript "members" (el_members route);
  let stop_nodes := stop_comprehension members in
  G' ← add_stops route node_elements G stop_nodes;
  Ok (add_edges G' stop_nodes).

Fixpoint process_routes (node_elements : gmap Z Element) (G : Graph)
    (route_elements : list Element) : result Graph :=
  match route_elements with
  | [] => Ok G
  | route :: rest =>
      G' ← process_route node_elements G route;
      process_routes node_elements G' rest
  end.

Definition create_route_graph (route_elements : list Element)
    (node_elements : gmap Z Element) : result Graph :=
  process_routes node_elements empty_graph route_elements.

(** ** Map renderer *)

Record CircleMarker := {
  cm_location : Q * Q;
  cm_radius : Z;
  cm_color : string;
  cm_fill : bool;
  cm_fill_color : string;
  cm_tooltip : string
}.

Record PolyLine := {
  pl_locations : list (Q * Q);
  pl_color : string;
  pl_weight : Z
}.

(** The [folium.Map] with what was added to it, in order. *)
Record FoliumMap := {
  map_location : Q * Q;
  map_zoom_start : Z;
  map_markers : list CircleMarker;
  map_polylines : list PolyLine
}.

(** [d.values()] and [d.items()] *)
Definition values {A} (d : gmap Z A) : list A := (map_to_list d).*2.
Definition items {A} (d : gmap Z A) : list (Z * A) := map_to_list d.

(** [sum(l)]: additions from the left, starting at 0. *)
Definition sum (l : list Q) : Q := foldl Qplus 0%Q l.

(** [len(l)] as a number to divide by. *)
Definition len {A} (l : list A) : Q := inject_Z (Z.of_nat (length l)).

Definition marker_of (node_labels node_colors : gmap Z string)
    (item : Z * (Q * Q)) : CircleMarker :=
  let '(node, p) := item in
  let node_name := default ("Node " +:+ pretty node) (node_labels !! node) in
  let color := default "blue" (node_colors !! node) in
  {| cm_location := (p.2, p.1); cm_radius := 6; cm_color := color;
     cm_fill := true; cm_fill_color := color; cm_tooltip := node_name |}.

Definition line_between (pu pv : Q * Q) : PolyLine :=
  {| pl_locations := [(pu.2, pu.1); (pv.2, pv.1)];
     pl_color := "blue"; pl_weight := 2 |}.

(** Body of the loop [for u, v in G.edges()]: the lines it adds. *)
Definition line_of (positions : gmap Z (Q * Q)) (e : Z * Z) : list PolyLine :=
  match positions !! e.1, positions !! e.2 with
  | Some pu, Some pv => [line_between pu pv]
  | _, _ => []
  end.

Definition no_pos_message : string :=
  "Graph nodes must contain a 'pos' attribute with (longitude, latitude).".

Definition create_folium_map (G : Graph) (zoom_start : Z) : result FoliumMap :=
  let positions := get_node_attributes G pos in
  let node_labels := get_node_attributes G name in
  let node_colors := get_node_attributes G colour in
  if decide (size positions = 0%nat) then Raise (ValueError no_pos_message)
  else
    let latitudes := snd <$> values positions in
    let longitudes := fst <$> values positions in
    let center_lat := (sum latitudes / len latitudes)%Q in
    let center_lon := (sum longitudes / len longitudes)%Q in
    Ok {| map_location := (center_lat, center_lon);
          map_zoom_start := zoom_start;
          map_markers := marker_of node_labels node_colors <$> items positions;
          map_polylines := edges G ≫= line_of positions |}.

(** ** Vocabulary of the properties *)

(** The words of the specification: [tags] is present and contains a
    [route] key. *)
Definition route_tagged (element : Element) : Prop :=
  ∃ tags, el_tags element = Some tags ∧ "route" ∈ dom tags.

#[global] Instance route_tagged_dec element : Decision (route_tagged element).
Proof.
  unfold route_tagged. destruct (el_tags element) as [tags|].
  - destruct (decide ("route" ∈ dom tags)); [left; eauto|right; naive_solver].
  - right; naive_solver.
Defined.

(** The representation invariant of [networkx.Graph]: a vertex has an
    attribute dict exactly when it has a neighbour dict, and adjacency is
    symmetric. *)
Definition graph_wf (G : Graph) : Prop :=
  dom (g_adj G) = dom (g_node G) ∧ (∀ u v, has_edge G u v → has_edge G v u).

(** An attribute of a vertex, if the vertex exists and carries it. *)
Definition vattr {A} (field : NodeAttrs → option A) (G : Graph) (v : Z)
  : option A :=
  g_node G !! v ≫= field.

(** The consecutive pairs of a list, in order. *)
Fixpoint adjacent_pairs (l : list Z) : list (Z * Z) :=
  match l with
  | a :: (b :: _) as rest => (a, b) :: adjacent_pairs rest
  | _ => []
  end.

Definition add_pairs (G : Graph) (ps : list (Z * Z)) : Graph :=
  foldl (λ G p, add_edge G p.1 p.2) G ps.

(** The refs of a route's stop-role members, in member order. *)
Definition stop_refs (route : Element) : list Z :=
  mem_ref <$> stop_comprehension (default [] (el_members route)).

(** The colour a route gives to its vertices. *)
Definition route_colour (route : Element) : string :=
  get "colour" (default ∅ (el_tags route)) "#808080".

(** The words of the specification: the route's [colour] tag if present,
    else the default gray. *)
Definition colour_or_gray (route : Element) : string :=
  default "#808080" (el_tags route ≫= lookup "colour").



(** Both endpoints of an edge carry a position. *)
Definition positioned (G : Graph) (e : Z * Z) : Prop :=
  is_Some (vattr pos G e.1) ∧ is_Some (vattr pos G e.2).

(** The record of a node carries what the vertex loop subscripts. *)
Definition node_complete (node_data : Element) : Prop :=
  is_Some (el_tags node_data) ∧ is_Some (el_lon node_data) ∧
  is_Some (el_lat node_data).

(** A route contributes the vertex [v] when [v] is the ref of one of its
    stop-role members and the lookup of [v] in the node mapping succeeds. *)
Definition contributes (node_elements : gmap Z Element) (route : Element)
    (v : Z) : Prop :=
  v ∈ stop_refs route ∧ v ∈ dom node_elements.

(** The edges a route asks for: the consecutive pairs of its stop refs. *)
Definition route_pairs (route : Element) : list (Z * Z) :=
  adjacent_pairs (stop_refs route).

(** [G.number_of_edges()] *)
Definition number_of_edges (G : Graph) : nat := length (edges G).

(** An undirected edge with its endpoints in increasing order. *)
Definition normalise (e : Z * Z) : Z * Z :=
  if decide (e.1 ≤ e.2) then e else (e.2, e.1).

(** ** Example inputs *)

Definition stop (ref : Z) : Member := {| mem_ref := ref; mem_role := "stop" |}.

Definition station (id : Z) (tags : option (gmap string string))
    (lon lat : Q) : Element :=
  {| el_type := "node"; el_id := id; el_tags := tags;
     el_lat := Some lat; el_lon := Some lon; el_members := None |}.

Definition line (id : Z) (tags : gmap string string)
    (members : list Member) : Element :=
  {| el_type := "relation"; el_id := id; el_tags := Some tags;
     el_lat := None; el_lon := None; el_members := Some members |}.

(** A payload with two elements of type node that share the id 1. *)
Definition small_payload : OsmData :=
  {| elements_of :=
       [ station 1 None 0 0;
         line 10 {[ "route" := "subway" ]} [stop 1];
         line 11 {[ "network" := "VBB" ]} [stop 1];
         station 1 (Some {[ "name" := "Zoo" ]}) 5 5 ] |}.

(** A line of two stops of which only the first is in the payload. *)
Definition broken_line : Element :=
  line 10 {[ "route" := "subway" ]} [stop 1; stop 2].
Definition broken_line_nodes : gmap Z Element :=
  {[ 1 := station 1 (Some ∅) 0 0 ]}.

(** A line whose only stop is a node without tags. *)
Definition bare_stop_line : Element :=
  line 10 {[ "route" := "subway" ]} [stop 1].
Definition bare_stop_nodes : gmap Z Element :=
  {[ 1 := station 1 None 0 0 ]}.

(** Two lines of different colours that share the stop 3, and a third
    line without a colour. *)
Definition red_line : Element :=
  line 10 {[ "route" := "subway"; "colour" := "red" ]}
    [stop 1; {| mem_ref := 7; mem_role := "platform" |}; stop 3].
Definition green_line : Element :=
  line 11 {[ "route" := "subway"; "colour" := "green" ]}
    [stop 2; {| mem_ref := 3; mem_role := "stop_exit_only" |}].
Definition plain_line : Element :=
  line 12 {[ "route" := "subway" ]} [stop 4; stop 5].
Definition three_stop_line : Element :=
  line 13 {[ "route" := "subway" ]}
    [stop 1; {| mem_ref := 7; mem_role := "platform" |}; stop 2; stop 3].
Definition city_nodes : gmap Z Element :=
  {[ 1 := station 1 (Some {[ "name" := "Zoo" ]}) 0 0;
     2 := station 2 (Some ∅) 2 2;
     3 := station 3 (Some {[ "name" := "Mitte" ]}) 1 3;
     4 := station 4 (Some ∅) 5 5 ]}.

(** Two joined vertices, at (lon, lat) = (0, 0) and (2, 2), and an edge
    to a vertex without attributes. *)
Definition two_point_graph : Graph :=
  add_edge
    (add_edge
       (add_node
          (add_node empty_graph 1
             {| pos := Some (0%Q, 0%Q); name := Some "a"; colour := Some "red" |})
          2 {| pos := Some (2%Q, 2%Q); name := None; colour := None |})
       1 2)
    2 9.

(** ** Geodata fetcher and entry point *)

(** The exceptions of the whole program: those of the core, and those of
    the fetch and of what follows it in [main]. *)
Inductive py_exn :=
  | CoreError (e : exn)
  | HTTPError (status : Z)
  | JSONDecodeError
  | TypeError (msg : string).

Inductive outcome (A : Type) :=
  | Returns (a : A)
  | Raises (e : py_exn).
Arguments Returns {A} a.
Arguments Raises {A} e.

#[global] Instance outcome_ret : MRet outcome := λ A a, Returns a.
#[global] Instance outcome_bind : MBind outcome := λ A B k r,
  match r with
  | Returns a => k a
  | Raises e => Raises e
  end.

Definition lift {A} (r : result A) : outcome A :=
  match r with
  | Ok a => Returns a
  | Raise e => Raises (CoreError e)
  end.

(** What [requests.get] returned for the query: the status code and the
    body, decoded when it is JSON.  The request itself is outside the
    model. *)
Record Response (A : Type) := {
  status_code : Z;
  json_body : option A
}.
Arguments status_code {A} _.
Arguments json_body {A} _.

(** [response.json()] *)
Definition json {A} (response : Response A) : outcome A :=
  match json_body response with
  | Some data => Returns data
  | None => Raises JSONDecodeError
  end.

(** [response.raise_for_status()]: an error for the client and server
    error codes, nothing for the others. *)
Definition raise_for_status {A} (response : Response A) : outcome unit :=
  if decide (400 ≤ status_code response < 600)
  then Raises (HTTPError (status_code response))
  else Returns tt.

(** [extract_osm_geodata], from the response on.  A Python function that
    ends without [return] gives [None]. *)
Definition extract_osm_geodata {A} (response : Response A)
  : outcome (option A) :=
  if decide (status_code response = 200) then
    data ← json response; Returns (Some data)
  else
    _ ← raise_for_status response; Returns None.

Definition none_subscript : py_exn :=
  TypeError "'NoneType' object is not subscriptable".

(** [main], up to the map it shows in the browser. *)
Definition main (response : Response OsmData) : outcome FoliumMap :=
  subway_data ← extract_osm_geodata response;
  match subway_data with
  | None => Raises none_subscript
  | Some subway_data =>
      let route_elements := extract_route_elements subway_data in
      let node_elements := extract_node_elements subway_data in
      graph ← lift (create_route_graph route_elements node_elements);
      lift (create_folium_map graph 12)
  end.

(** ** Further vocabulary *)

(** The position and the name that the vertex loop reads off a node
    record. *)
Definition node_pos (node_data : Element) : option (Q * Q) :=
  lon ← el_lon node_data; lat ← el_lat node_data; Some (lon, lat).

Definition node_name (ref : Z) (node_data : Element) : string :=
  default (pretty ref) (el_tags node_data ≫= lookup "name").

(** What a route needs for the builder to get through it. *)
Definition route_ready (node_elements : gmap Z Element) (route : Element)
  : Prop :=
  is_Some (el_members route) ∧
  ∀ v node_data, v ∈ stop_refs route →
    node_elements !! v = Some node_data →
    is_Some (el_tags route) ∧ node_complete node_data.

(** The exceptions that subscripting raises in the builder. *)
Definition builder_key (e : exn) : Prop :=
  ∃ key, e = KeyError key ∧ key ∈ ["members"; "tags"; "lon"; "lat"].

(** The marker that [create_folium_map] draws for a vertex at [p]. *)
Definition marker_at (G : Graph) (v : Z) (p : Q * Q) : CircleMarker :=
  {| cm_location := (p.2, p.1); cm_radius := 6;
     cm_color := default "blue" (vattr colour G v);
     cm_fill := true;
     cm_fill_color := default "blue" (vattr colour G v);
     cm_tooltip := default ("Node " +:+ pretty v) (vattr name G v) |}.

(** The marker of a stop on the map of the builder's graph. *)
Definition stop_marker (v : Z) (node_data : Element) (lon lat : Q)
    (route : Element) : CircleMarker :=
  {| cm_location := (lat, lon); cm_radius := 6;
     cm_color := colour_or_gray route; cm_fill := true;
     cm_fill_color := colour_or_gray route;
     cm_tooltip := node_name v node_data |}.


(** * Properties *)

(** ** Element classifier *)

Lemma has_route_tag_spec element :
  has_route_tag element = true ↔ route_tagged element.
Proof.
  unfold has_route_tag, route_tagged.
  destruct (el_tags element) as [tags|].
  - rewrite bool_decide_eq_true, <- elem_of_dom. naive_solver.
  - naive_solver.
Qed.

Lemma route_comprehension_filter l :
  route_comprehension l = filter route_tagged l.
Proof.
  induction l as [|e l IH]; [done|].
  cbn [route_comprehension]. rewrite filter_cons, IH.
  destruct (has_route_tag e) eqn:He.
  - rewrite decide_True; [done|]. by apply has_route_tag_spec.
  - rewrite decide_False; [done|].
    rewrite <- has_route_tag_spec. congruence.
Qed.

(** C6: [extract_route_elements] returns exactly the order-preserving
    subsequence of the elements whose [tags] is present and holds a
    [route] key; an element without [tags] is never returned, and no
    elements give no routes. *)
Theorem extract_route_elements_subsequence (osm_data : OsmData) :
  extract_route_elements osm_data = filter route_tagged (elements_of osm_data)
  ∧ sublist (extract_route_elements osm_data) (elements_of osm_data)
  ∧ (∀ element, element ∈ extract_route_elements osm_data ↔
       element ∈ elements_of osm_data ∧ route_tagged element)
  ∧ (∀ element, el_tags element = None →
       element ∉ extract_route_elements osm_data)
  ∧ (elements_of osm_data = [] → extract_route_elements osm_data = []).
Proof.
  unfold extract_route_elements. rewrite route_comprehension_filter.
  split_and!.
  - done.
  - apply sublist_filter.
  - intros e. rewrite list_elem_of_filter. naive_solver.
  - intros e He. rewrite list_elem_of_filter.
    intros [(tags & Htags & _) _]. congruence.
  - by intros ->.
Qed.

Lemma extract_route_elements_subsequence_witness :
  extract_route_elements small_payload =
    [line 10 {[ "route" := "subway" ]} [stop 1]]
  ∧ station 1 None 0 0 ∉ extract_route_elements small_payload.
Proof.
  destruct (extract_route_elements_subsequence small_payload)
    as (_ & _ & _ & Hnone & _).
  split; [vm_compute; reflexivity|]. apply Hnone. reflexivity.
Defined.

Lemma node_comprehension_snoc l element :
  node_comprehension (l ++ [element]) =
    if bool_decide (el_type element = "node")
    then <[el_id element := element]> (node_comprehension l)
    else node_comprehension l.
Proof. unfold node_comprehension. by rewrite foldl_app. Qed.

Lemma node_comprehension_dom l k :
  k ∈ dom (node_comprehension l) ↔
  ∃ element, element ∈ l ∧ el_type element = "node" ∧ el_id element = k.
Proof.
  induction l as [|e l IH] using rev_ind.
  - unfold node_comprehension; cbn. rewrite dom_empty_L.
    split; [set_solver|]. intros (e & He & _). by apply not_elem_of_nil in He.
  - rewrite node_comprehension_snoc. case_bool_decide as Hty.
    + rewrite dom_insert_L, elem_of_union, elem_of_singleton, IH.
      setoid_rewrite elem_of_app. setoid_rewrite list_elem_of_singleton.
      naive_solver.
    + rewrite IH. setoid_rewrite elem_of_app.
      setoid_rewrite list_elem_of_singleton. naive_solver.
Qed.

Lemma node_comprehension_last l1 element l2 :
  el_type element = "node" →
  (∀ later, later ∈ l2 → el_type later = "node" →
     el_id later ≠ el_id element) →
  node_comprehension (l1 ++ element :: l2) !! el_id element = Some element.
Proof.
  intros Hty. induction l2 as [|e l2 IH] using rev_ind; intros Hlater.
  - rewrite node_comprehension_snoc, bool_decide_eq_true_2 by done.
    apply lookup_insert_eq.
  - replace (l1 ++ element :: l2 ++ [e]) with ((l1 ++ element :: l2) ++ [e])
      by (by rewrite <- app_assoc).
    rewrite node_comprehension_snoc.
    assert (Hl2 : ∀ later, later ∈ l2 → el_type later = "node" →
                    el_id later ≠ el_id element).
    { intros later Hin. apply Hlater. set_solver. }
    case_bool_decide as Hte; [|by apply IH].
    rewrite lookup_insert_ne by (apply Hlater; [set_solver|done]).
    by apply IH.
Qed.

(** C7: the keys of [extract_node_elements] are exactly the ids of the
    elements of type [node], and the value kept for an id is the last
    such element in iteration order. *)
Theorem extract_node_elements_last_writer (osm_data : OsmData) :
  (∀ k, k ∈ dom (extract_node_elements osm_data) ↔
     ∃ element, element ∈ elements_of osm_data ∧
                el_type element = "node" ∧ el_id element = k)
  ∧ (∀ earlier element later,
       elements_of osm_data = earlier ++ element :: later →
       el_type element = "node" →
       (∀ e, e ∈ later → el_type e = "node" → el_id e ≠ el_id element) →
       extract_node_elements osm_data !! el_id element = Some element).
Proof.
  unfold extract_node_elements. split.
  - apply node_comprehension_dom.
  - intros l1 e l2 -> Hty Hlast. by apply node_comprehension_last.
Qed.

Lemma extract_node_elements_last_writer_witness :
  extract_node_elements small_payload !! 1 =
    Some (station 1 (Some {[ "name" := "Zoo" ]}) 5 5).
Proof.
  apply (proj2 (extract_node_elements_last_writer small_payload)
           [ station 1 None 0 0;
             line 10 {[ "route" := "subway" ]} [stop 1];
             line 11 {[ "network" := "VBB" ]} [stop 1] ]
           (station 1 (Some {[ "name" := "Zoo" ]}) 5 5) []).
  - reflexivity.
  - reflexivity.
  - intros e He. apply list_elem_of_In in He. destruct He.
Defined.

(** ** Substring test *)

Lemma append_nil_l s : "" +:+ s = s.
Proof. reflexivity. Qed.

Lemma append_cons c s1 s2 : String c s1 +:+ s2 = String c (s1 +:+ s2).
Proof. reflexivity. Qed.

Lemma prefix_append sub s :
  String.prefix sub s = true ↔ ∃ rest, s = sub +:+ rest.
Proof.
  revert s. induction sub as [|c sub IH]; intros s.
  - split; [by exists s|by destruct s].
  - destruct s as [|d s]; [split; [done|by intros [? [=]]]|].
    setoid_rewrite append_cons. cbn [String.prefix].
    destruct (Ascii.ascii_dec c d) as [->|Hne].
    + rewrite IH. split; intros [rest Hrest]; exists rest; congruence.
    + split; [done|]. intros [rest [= ? _]]. done.
Qed.

(** [contains sub s] holds exactly when [sub] occurs in [s]. *)
Lemma contains_spec sub s :
  contains sub s = true ↔ ∃ before after, s = before +:+ sub +:+ after.
Proof.
  induction s as [|c s IH]; cbn [contains];
    rewrite orb_true_iff, prefix_append.
  - split.
    + intros [[rest ->]|[=]]. by exists "", rest.
    + intros ([|? ?] & after & Heq); [left; by exists after|done].
  - rewrite IH. split.
    + intros [[rest ->]|(before & after & ->)]; [by exists "", rest|].
      by exists (String c before), after.
    + intros ([|d before] & after & Heq); [left; by exists after|].
      right. rewrite append_cons in Heq. injection Heq as -> ->.
      by exists before, after.
Qed.

(** ** Graph operations *)

Section graph_ops.
Implicit Types (G : Graph) (u v n a b : Z).

Lemma empty_graph_wf : graph_wf empty_graph.
Proof.
  split; [done|]. unfold has_edge, neighbours; cbn.
  intros u v. rewrite lookup_empty. set_solver.
Qed.

Lemma neighbours_None G n : n ∉ dom (g_adj G) → neighbours G n = ∅.
Proof. unfold neighbours. rewrite not_elem_of_dom. by intros ->. Qed.

Lemma has_edge_dom G u v :
  graph_wf G → has_edge G u v → u ∈ dom (g_node G) ∧ v ∈ dom (g_node G).
Proof.
  intros [Hdom Hsym] Huv.
  assert (Hin : ∀ x y, has_edge G x y → x ∈ dom (g_node G)).
  { intros x y Hxy. rewrite <- Hdom.
    destruct (decide (x ∈ dom (g_adj G))) as [|Hx]; [done|].
    unfold has_edge in Hxy. rewrite neighbours_None in Hxy by done.
    set_solver. }
  split; [by eapply Hin|]. eapply Hin, Hsym, Huv.
Qed.

Lemma dom_node_ensure_node G n :
  dom (g_node (ensure_node G n)) = {[n]} ∪ dom (g_node G).
Proof.
  unfold ensure_node. destruct (g_node G !! n) eqn:Hn; cbn.
  - apply (elem_of_dom_2 (D := gset Z)) in Hn. set_solver.
  - by rewrite dom_insert_L.
Qed.

Lemma dom_adj_ensure_node G n :
  dom (g_adj G) = dom (g_node G) →
  dom (g_adj (ensure_node G n)) = {[n]} ∪ dom (g_adj G).
Proof.
  intros Hdom. unfold ensure_node. destruct (g_node G !! n) eqn:Hn; cbn.
  - apply (elem_of_dom_2 (D := gset Z)) in Hn. set_solver.
  - by rewrite dom_insert_L.
Qed.

Lemma neighbours_ensure_node G n u :
  dom (g_adj G) = dom (g_node G) →
  neighbours (ensure_node G n) u = neighbours G u.
Proof.
  intros Hdom. unfold ensure_node. destruct (g_node G !! n) eqn:Hn; [done|].
  unfold neighbours; cbn. destruct (decide (u = n)) as [->|Hne].
  - rewrite lookup_insert_eq.
    apply (not_elem_of_dom (D := gset Z)) in Hn. rewrite <- Hdom in Hn.
    apply not_elem_of_dom in Hn. by rewrite Hn.
  - by rewrite lookup_insert_ne.
Qed.

Lemma ensure_node_wf G n : graph_wf G → graph_wf (ensure_node G n).
Proof.
  intros [Hdom Hsym]. split.
  - by rewrite dom_adj_ensure_node, dom_node_ensure_node, Hdom.
  - unfold has_edge. intros u v.
    rewrite !neighbours_ensure_node by done. apply Hsym.
Qed.

Lemma vattr_ensure_node {A} (field : NodeAttrs → option A) G n v :
  field no_attrs = None →
  vattr field (ensure_node G n) v = vattr field G v.
Proof.
  intros Hf. unfold vattr, ensure_node.
  destruct (g_node G !! n) eqn:Hn; [done|]. cbn.
  destruct (decide (v = n)) as [->|Hne].
  - by rewrite lookup_insert_eq, Hn.
  - by rewrite lookup_insert_ne.
Qed.

Lemma dom_node_add_node G n attr :
  dom (g_node (add_node G n attr)) = {[n]} ∪ dom (g_node G).
Proof. unfold add_node. destruct (g_node G !! n); cbn; by rewrite dom_insert_L. Qed.

Lemma neighbours_add_node G n attr u :
  dom (g_adj G) = dom (g_node G) →
  neighbours (add_node G n attr) u = neighbours G u.
Proof.
  intros Hdom. unfold add_node. destruct (g_node G !! n) eqn:Hn; [done|].
  unfold neighbours; cbn. destruct (decide (u = n)) as [->|Hne].
  - rewrite lookup_insert_eq.
    apply (not_elem_of_dom (D := gset Z)) in Hn. rewrite <- Hdom in Hn.
    apply not_elem_of_dom in Hn. by rewrite Hn.
  - by rewrite lookup_insert_ne.
Qed.

Lemma add_node_wf G n attr : graph_wf G → graph_wf (add_node G n attr).
Proof.
  intros [Hdom Hsym]. split.
  - rewrite dom_node_add_node. unfold add_node.
    destruct (g_node G !! n) eqn:Hn; cbn.
    + apply (elem_of_dom_2 (D := gset Z)) in Hn. set_solver.
    + rewrite dom_insert_L. by rewrite Hdom.
  - unfold has_edge. intros u v.
    rewrite !neighbours_add_node by done. apply Hsym.
Qed.

Lemma has_edge_add_node G n attr u v :
  graph_wf G → has_edge (add_node G n attr) u v ↔ has_edge G u v.
Proof. intros [Hdom _]. unfold has_edge. by rewrite neighbours_add_node. Qed.

(** [add_node] with a given attribute overwrites it on that vertex and
    leaves the other vertices alone. *)
Lemma vattr_add_node {A} (field : NodeAttrs → option A) G n attr v x :
  (∀ old, field (attrs_update old attr) = Some x) →
  vattr field (add_node G n attr) v =
    if decide (v = n) then Some x else vattr field G v.
Proof.
  intros Hf. unfold vattr, add_node.
  destruct (g_node G !! n) eqn:Hn; cbn; case_decide as Hv; subst;
    rewrite ?lookup_insert_eq, ?lookup_insert_ne by done; cbn; by rewrite ?Hf.
Qed.

Lemma lookup_link adj a b u :
  default ∅ (link adj a b !! u) =
    if decide (u = a) then {[b]} ∪ default ∅ (adj !! a)
    else default ∅ (adj !! u).
Proof.
  unfold link. case_decide as Hu; subst.
  - by rewrite lookup_insert_eq.
  - by rewrite lookup_insert_ne.
Qed.

Lemma neighbours_add_edge G a b u :
  dom (g_adj G) = dom (g_node G) →
  neighbours (add_edge G a b) u =
    (if decide (u = a) then {[b]} else ∅) ∪
    (if decide (u = b) then {[a]} else ∅) ∪ neighbours G u.
Proof.
  intros Hdom. unfold neighbours at 1, add_edge; cbn.
  rewrite lookup_link.
  assert (Hdom' : dom (g_adj (ensure_node G a)) = dom (g_node (ensure_node G a))).
  { by rewrite dom_adj_ensure_node, dom_node_ensure_node, Hdom. }
  pose proof (neighbours_ensure_node (ensure_node G a) b) as H2.
  pose proof (neighbours_ensure_node G a) as H1.
  unfold neighbours in H1, H2.
  repeat case_decide; subst; rewrite ?lookup_link;
    repeat case_decide; try done; rewrite ?H2, ?H1 by done; set_solver.
Qed.

Lemma has_edge_add_edge G a b u v :
  graph_wf G →
  has_edge (add_edge G a b) u v ↔
    has_edge G u v ∨ (u = a ∧ v = b) ∨ (u = b ∧ v = a).
Proof.
  intros [Hdom _]. unfold has_edge. rewrite neighbours_add_edge by done.
  repeat case_decide; set_solver.
Qed.

Lemma dom_node_add_edge G a b :
  dom (g_node (add_edge G a b)) = {[a; b]} ∪ dom (g_node G).
Proof.
  unfold add_edge; cbn. rewrite !dom_node_ensure_node. set_solver.
Qed.

Lemma add_edge_wf G a b : graph_wf G → graph_wf (add_edge G a b).
Proof.
  intros HG. split.
  - destruct HG as [Hdom _]. rewrite dom_node_add_edge.
    unfold add_edge, link; cbn. rewrite !dom_insert_L.
    rewrite !dom_adj_ensure_node; rewrite ?dom_node_ensure_node;
      rewrite ?Hdom; try done.
    + set_solver.
    + by rewrite dom_adj_ensure_node, Hdom.
  - intros u v. rewrite !has_edge_add_edge by done.
    destruct HG as [_ Hsym]. naive_solver.
Qed.

Lemma vattr_add_edge {A} (field : NodeAttrs → option A) G a b v :
  field no_attrs = None →
  vattr field (add_edge G a b) v = vattr field G v.
Proof.
  intros Hf. unfold add_edge, vattr; cbn.
  fold (vattr field (ensure_node (ensure_node G a) b) v).
  by rewrite !vattr_ensure_node.
Qed.
End graph_ops.

(** ** The edge loop *)

Lemma adjacent_pairs_length l :
  length (adjacent_pairs l) = (length l - 1)%nat.
Proof.
  induction l as [|a [|b l] IH]; [done..|].
  cbn [adjacent_pairs length] in *. lia.
Qed.

Lemma adjacent_pairs_lookup l a b :
  (a, b) ∈ adjacent_pairs l ↔
  ∃ i : nat, l !! i = Some a ∧ l !! S i = Some b.
Proof.
  induction l as [|x [|y l] IH].
  - cbn. split; [by intros ?%not_elem_of_nil|]. by intros (i & ? & _).
  - cbn. split; [by intros ?%not_elem_of_nil|].
    intros (i & _ & Hi). by destruct i.
  - cbn [adjacent_pairs]. rewrite elem_of_cons, IH. split.
    + intros [[= -> ->]|(i & Hi1 & Hi2)]; [by exists 0%nat|by exists (S i)].
    + intros ([|i] & Hi1 & Hi2); [left; cbn in *; congruence|right; eauto].
Qed.

Lemma adjacent_pairs_elem l a b :
  (a, b) ∈ adjacent_pairs l → a ∈ l ∧ b ∈ l.
Proof.
  rewrite adjacent_pairs_lookup. intros (i & Ha & Hb).
  split; by eapply list_elem_of_lookup_2.
Qed.

(** The index loop visits the consecutive pairs of the stop list. *)
Lemma add_edges_from_prefix pre l G :
  foldl (add_edge_at (pre ++ l)) G (seq (length pre) (length l - 1)) =
    add_pairs G (adjacent_pairs (mem_ref <$> l)).
Proof.
  revert pre G. induction l as [|a [|b l] IH]; intros pre G; [done..|].
  replace (length (a :: b :: l) - 1)%nat with (S (length (b :: l) - 1))
    by (cbn [length]; lia).
  cbn [seq foldl fmap list_fmap adjacent_pairs add_pairs].
  unfold add_edge_at at 2.
  rewrite (lookup_app_r pre) by lia.
  rewrite (lookup_app_r pre (a :: b :: l) (length pre + 1)) by lia.
  replace (length pre - length pre)%nat with 0%nat by lia.
  replace (length pre + 1 - length pre)%nat with 1%nat by lia.
  cbn [lookup list_lookup].
  specialize (IH (pre ++ [a])). rewrite length_app in IH. cbn [length] in IH.
  replace (length pre + 1)%nat with (S (length pre)) in IH by lia.
  rewrite <- app_assoc in IH. cbn [app] in IH. by rewrite IH.
Qed.

Lemma add_edges_pairs G stop_nodes :
  add_edges G stop_nodes = add_pairs G (adjacent_pairs (mem_ref <$> stop_nodes)).
Proof.
  unfold add_edges, range.
  replace (Z.to_nat (Z.of_nat (length stop_nodes) - 1))
    with (length stop_nodes - 1)%nat by lia.
  apply (add_edges_from_prefix []).
Qed.

Lemma add_pairs_wf G ps : graph_wf G → graph_wf (add_pairs G ps).
Proof.
  revert G. induction ps as [|p ps IH]; intros G HG; [done|].
  cbn. by apply IH, add_edge_wf.
Qed.

Lemma has_edge_add_pairs G ps u v :
  graph_wf G →
  has_edge (add_pairs G ps) u v ↔ has_edge G u v ∨ (u, v) ∈ ps ∨ (v, u) ∈ ps.
Proof.
  revert G. induction ps as [|[a b] ps IH]; intros G HG.
  - cbn. rewrite !elem_of_nil. naive_solver.
  - cbn [add_pairs foldl]. fold (add_pairs (add_edge G a b) ps).
    rewrite IH by by apply add_edge_wf.
    rewrite has_edge_add_edge by done. rewrite !elem_of_cons. naive_solver.
Qed.

Lemma vattr_add_pairs {A} (field : NodeAttrs → option A) G ps v :
  field no_attrs = None → vattr field (add_pairs G ps) v = vattr field G v.
Proof.
  intros Hf. revert G. induction ps as [|p ps IH]; intros G; [done|].
  cbn [add_pairs foldl]. fold (add_pairs (add_edge G p.1 p.2) ps).
  by rewrite IH, vattr_add_edge.
Qed.

Lemma dom_node_add_pairs G ps :
  dom (g_node (add_pairs G ps)) =
    dom (g_node G) ∪ list_to_set ps.*1 ∪ list_to_set ps.*2.
Proof.
  revert G. induction ps as [|[a b] ps IH]; intros G.
  - cbn. set_solver.
  - cbn [add_pairs foldl]. fold (add_pairs (add_edge G a b) ps).
    rewrite IH, dom_node_add_edge. cbn. set_solver.
Qed.

(** ** The vertex loop *)

Section vertex_loop.
Context (route : Element) (node_elements : gmap Z Element).
Implicit Types (G : Graph) (node : Member) (v : Z).

Lemma add_stop_inv G node G' :
  add_stop route node_elements G node = Ok G' →
  (node_elements !! mem_ref node = None ∧ G' = G) ∨
  (∃ node_data ntags rtags lon lat,
     node_elements !! mem_ref node = Some node_data ∧
     el_tags node_data = Some ntags ∧ el_tags route = Some rtags ∧
     el_lon node_data = Some lon ∧ el_lat node_data = Some lat ∧
     G' = add_node G (mem_ref node)
            {| pos := Some (lon, lat);
               name := Some (get "name" ntags (pretty (mem_ref node)));
               colour := Some (get "colour" rtags "#808080") |}).
Proof.
  unfold add_stop. destruct (node_elements !! mem_ref node) as [nd|];
    [|intros [= <-]; by left].
  destruct (el_tags nd) as [ntags|] eqn:Hnt; [|done].
  destruct (el_tags route) as [rtags|] eqn:Hrt; [|done].
  destruct (el_lon nd) as [lon|] eqn:Hlon; [|done].
  destruct (el_lat nd) as [lat|] eqn:Hlat; [|done].
  cbn. intros [= <-]. right. by exists nd, ntags, rtags, lon, lat.
Qed.

Lemma add_stop_ok G node :
  is_Some (el_tags route) →
  (∀ node_data, node_elements !! mem_ref node = Some node_data →
                node_complete node_data) →
  ∃ G', add_stop route node_elements G node = Ok G'.
Proof.
  intros [rtags Hr] Hn. unfold add_stop.
  destruct (node_elements !! mem_ref node) as [nd|]; [|by eexists].
  destruct (Hn nd eq_refl) as ([? ->] & [? ->] & [? ->]).
  rewrite Hr. by eexists.
Qed.

Lemma add_stops_ok G stop_nodes :
  is_Some (el_tags route) →
  (∀ node node_data, node ∈ stop_nodes →
     node_elements !! mem_ref node = Some node_data →
     node_complete node_data) →
  ∃ G', add_stops route node_elements G stop_nodes = Ok G'.
Proof.
  intros Hr. revert G. induction stop_nodes as [|node rest IH]; intros G Hn.
  - by eexists.
  - destruct (add_stop_ok G node Hr) as [G1 HG1].
    { intros nd. apply Hn. set_solver. }
    cbn [add_stops]. rewrite HG1. cbn. apply IH.
    intros n nd Hin. apply Hn. set_solver.
Qed.

Lemma add_stops_wf G stop_nodes G' :
  graph_wf G → add_stops route node_elements G stop_nodes = Ok G' →
  graph_wf G'.
Proof.
  revert G. induction stop_nodes as [|node rest IH]; intros G HG.
  - by intros [= <-].
  - cbn [add_stops].
    destruct (add_stop route node_elements G node) as [G1|] eqn:H1; [|done].
    cbn. apply IH.
    apply add_stop_inv in H1 as [[_ ->]|(?&?&?&?&?&_&_&_&_&_&->)];
      [done|by apply add_node_wf].
Qed.

Lemma has_edge_add_stops G stop_nodes G' u v :
  graph_wf G → add_stops route node_elements G stop_nodes = Ok G' →
  has_edge G' u v ↔ has_edge G u v.
Proof.
  revert G. induction stop_nodes as [|node rest IH]; intros G HG.
  - by intros [= <-].
  - cbn [add_stops].
    destruct (add_stop route node_elements G node) as [G1|] eqn:H1; [|done].
    cbn. intros H2.
    apply add_stop_inv in H1 as [[_ ->]|(?&?&?&?&?&_&_&_&_&_&->)];
      [by apply IH|].
    rewrite (IH _ (add_node_wf _ _ _ HG) H2). by apply has_edge_add_node.
Qed.

Lemma dom_node_add_stops G stop_nodes G' :
  add_stops route node_elements G stop_nodes = Ok G' →
  dom (g_node G') =
    dom (g_node G) ∪ (list_to_set (mem_ref <$> stop_nodes) ∩ dom node_elements).
Proof.
  revert G. induction stop_nodes as [|node rest IH]; intros G.
  - intros [= <-]. set_solver.
  - cbn [add_stops].
    destruct (add_stop route node_elements G node) as [G1|] eqn:H1; [|done].
    cbn. intros H2. rewrite (IH _ H2).
    apply add_stop_inv in H1 as [[Hn ->]|(?&?&?&?&?&Hn&_&_&_&_&->)].
    + apply (not_elem_of_dom (D := gset Z)) in Hn. set_solver.
    + apply (elem_of_dom_2 (D := gset Z)) in Hn.
      rewrite dom_node_add_node. set_solver.
Qed.

(** After the vertex loop, a resolved stop has the route's colour and
    every other vertex keeps what it had. *)
Lemma colour_add_stops G stop_nodes G' v :
  add_stops route node_elements G stop_nodes = Ok G' →
  vattr colour G' v =
    if decide (v ∈ mem_ref <$> stop_nodes ∧ v ∈ dom node_elements)
    then Some (route_colour route) else vattr colour G v.
Proof.
  revert G. induction stop_nodes as [|node rest IH]; intros G.
  - intros [= <-]. rewrite decide_False; [done|]. set_solver.
  - cbn [add_stops].
    destruct (add_stop route node_elements G node) as [G1|] eqn:H1; [|done].
    cbn. intros H2. rewrite (IH _ H2).
    apply add_stop_inv in H1 as [[Hn ->]|(?&?&rtags&?&?&Hn&_&Hr&_&_&->)].
    + apply (not_elem_of_dom (D := gset Z)) in Hn.
      repeat case_decide; set_solver.
    + apply (elem_of_dom_2 (D := gset Z)) in Hn.
      rewrite (vattr_add_node colour _ _ _ _ (route_colour route)).
      2:{ intros old. unfold route_colour. by rewrite Hr. }
      repeat case_decide; set_solver.
Qed.

(** Only a resolved stop gains a position in the vertex loop. *)
Lemma pos_add_stops G stop_nodes G' v :
  add_stops route node_elements G stop_nodes = Ok G' →
  is_Some (vattr pos G' v) →
  is_Some (vattr pos G v) ∨
  (v ∈ mem_ref <$> stop_nodes ∧ v ∈ dom node_elements).
Proof.
  revert G. induction stop_nodes as [|node rest IH]; intros G.
  - intros [= <-]. by left.
  - cbn [add_stops].
    destruct (add_stop route node_elements G node) as [G1|] eqn:H1; [|done].
    cbn. intros H2 Hv. destruct (IH _ H2 Hv) as [Hv1|]; [|set_solver].
    apply add_stop_inv in H1 as [[Hn ->]|(?&?&?&lon&lat&Hn&_&_&_&_&->)];
      [by left|].
    apply (elem_of_dom_2 (D := gset Z)) in Hn.
    rewrite (vattr_add_node pos _ _ _ _ (lon, lat)) in Hv1 by done.
    case_decide; [right; set_solver|by left].
Qed.
End vertex_loop.

(** ** The route loop *)

Section route_loop.
Context (node_elements : gmap Z Element).
Implicit Types (G : Graph) (route : Element) (u v : Z).

Lemma process_route_inv G route G' :
  process_route node_elements G route = Ok G' →
  ∃ members G1,
    el_members route = Some members ∧
    add_stops route node_elements G (stop_comprehension members) = Ok G1 ∧
    stop_refs route = mem_ref <$> stop_comprehension members ∧
    G' = add_pairs G1 (route_pairs route).
Proof.
  unfold process_route, route_pairs, stop_refs.
  destruct (el_members route) as [members|]; [|done]. cbn.
  destruct (add_stops _ _ _ _) as [G1|] eqn:H1; [|done]. cbn.
  intros [= <-]. exists members, G1. by rewrite add_edges_pairs.
Qed.

Lemma process_route_ok G route :
  is_Some (el_members route) → is_Some (el_tags route) →
  (∀ v node_data, v ∈ stop_refs route →
     node_elements !! v = Some node_data → node_complete node_data) →
  ∃ G', process_route node_elements G route = Ok G'.
Proof.
  intros [members Hm] Ht Hn. unfold process_route. rewrite Hm. cbn.
  destruct (add_stops_ok route node_elements G (stop_comprehension members) Ht)
    as [G1 ->]; [|by eexists].
  intros node nd Hin. apply Hn. unfold stop_refs. rewrite Hm. cbn.
  by apply list_elem_of_fmap_2.
Qed.

Lemma process_route_wf G route G' :
  graph_wf G → process_route node_elements G route = Ok G' → graph_wf G'.
Proof.
  intros HG (members & G1 & _ & H1 & _ & ->)%process_route_inv.
  eapply add_pairs_wf, add_stops_wf; eauto.
Qed.

Lemma has_edge_process_route G route G' u v :
  graph_wf G → process_route node_elements G route = Ok G' →
  has_edge G' u v ↔
    has_edge G u v ∨ (u, v) ∈ route_pairs route ∨ (v, u) ∈ route_pairs route.
Proof.
  intros HG (members & G1 & _ & H1 & _ & ->)%process_route_inv.
  rewrite has_edge_add_pairs by (eapply add_stops_wf; eauto).
  by rewrite (has_edge_add_stops _ _ _ _ _ u v HG H1).
Qed.

Lemma colour_process_route G route G' v :
  process_route node_elements G route = Ok G' →
  vattr colour G' v =
    if decide (contributes node_elements route v)
    then Some (route_colour route) else vattr colour G v.
Proof.
  intros (members & G1 & _ & H1 & Hrefs & ->)%process_route_inv.
  rewrite vattr_add_pairs by done.
  rewrite (colour_add_stops _ _ _ _ _ v H1).
  unfold contributes. rewrite Hrefs.
  repeat case_decide; naive_solver.
Qed.

Lemma pos_process_route G route G' v :
  process_route node_elements G route = Ok G' →
  is_Some (vattr pos G' v) →
  is_Some (vattr pos G v) ∨ contributes node_elements route v.
Proof.
  intros (members & G1 & _ & H1 & Hrefs & ->)%process_route_inv.
  rewrite vattr_add_pairs by done. intros Hv.
  unfold contributes. rewrite Hrefs. by eapply pos_add_stops.
Qed.

Lemma dom_node_process_route G route G' :
  process_route node_elements G route = Ok G' →
  dom (g_node G') =
    dom (g_node G)
    ∪ (list_to_set (stop_refs route) ∩ dom node_elements)
    ∪ list_to_set (route_pairs route).*1 ∪ list_to_set (route_pairs route).*2.
Proof.
  intros (members & G1 & _ & H1 & Hrefs & ->)%process_route_inv.
  rewrite dom_node_add_pairs, (dom_node_add_stops _ _ _ _ _ H1).
  by rewrite Hrefs.
Qed.

Lemma process_routes_app G l1 l2 :
  process_routes node_elements G (l1 ++ l2) =
    G1 ← process_routes node_elements G l1;
    process_routes node_elements G1 l2.
Proof.
  revert G. induction l1 as [|r l1 IH]; intros G; [done|].
  cbn [app process_routes].
  destruct (process_route node_elements G r) as [G1|]; [|done].
  cbn. apply IH.
Qed.

Lemma process_routes_wf G routes G' :
  graph_wf G → process_routes node_elements G routes = Ok G' → graph_wf G'.
Proof.
  revert G. induction routes as [|r routes IH]; intros G HG.
  - by intros [= <-].
  - cbn [process_routes].
    destruct (process_route node_elements G r) as [G1|] eqn:H1; [|done].
    cbn. apply IH. by eapply process_route_wf.
Qed.

Lemma process_routes_ok G routes :
  (∀ route, route ∈ routes →
     is_Some (el_members route) ∧ is_Some (el_tags route)) →
  (∀ v node_data, node_elements !! v = Some node_data →
     node_complete node_data) →
  ∃ G', process_routes node_elements G routes = Ok G'.
Proof.
  intros Hr Hn. revert G. induction routes as [|r routes IH]; intros G.
  - by eexists.
  - destruct (process_route_ok G r) as [G1 H1].
    + apply Hr. set_solver.
    + apply Hr. set_solver.
    + intros v nd _. apply Hn.
    + cbn [process_routes]. rewrite H1. cbn. apply IH.
      intros r' Hin. apply Hr. set_solver.
Qed.

Lemma has_edge_process_routes G routes G' u v :
  graph_wf G → process_routes node_elements G routes = Ok G' →
  has_edge G' u v ↔
    has_edge G u v ∨
    ∃ route, route ∈ routes ∧
      ((u, v) ∈ route_pairs route ∨ (v, u) ∈ route_pairs route).
Proof.
  revert G. induction routes as [|r routes IH]; intros G HG.
  - intros [= <-]. split; [by left|]. intros [|(r & Hr & _)]; [done|].
    by apply not_elem_of_nil in Hr.
  - cbn [process_routes].
    destruct (process_route node_elements G r) as [G1|] eqn:H1; [|done].
    cbn. intros H2.
    rewrite (IH _ (process_route_wf _ _ _ HG H1) H2).
    rewrite (has_edge_process_route _ _ _ u v HG H1).
    setoid_rewrite elem_of_cons. naive_solver.
Qed.

Lemma colour_process_routes_none G routes G' v :
  process_routes node_elements G routes = Ok G' →
  (∀ route, route ∈ routes → ¬ contributes node_elements route v) →
  vattr colour G' v = vattr colour G v.
Proof.
  revert G. induction routes as [|r routes IH]; intros G.
  - by intros [= <-].
  - cbn [process_routes].
    destruct (process_route node_elements G r) as [G1|] eqn:H1; [|done].
    cbn. intros H2 Hnone. rewrite (IH _ H2).
    + rewrite (colour_process_route _ _ _ v H1).
      rewrite decide_False; [done|]. apply Hnone. set_solver.
    + intros r' Hin. apply Hnone. set_solver.
Qed.

(** Last writer wins: the colour of a vertex is that of the last route
    that contributes it. *)
Lemma colour_process_routes_last G earlier route later G' v :
  process_routes node_elements G (earlier ++ route :: later) = Ok G' →
  contributes node_elements route v →
  (∀ r, r ∈ later → ¬ contributes node_elements r v) →
  vattr colour G' v = Some (route_colour route).
Proof.
  rewrite process_routes_app.
  destruct (process_routes node_elements G earlier) as [G1|]; [|done].
  cbn [mbind result_bind process_routes].
  destruct (process_route node_elements G1 route) as [G2|] eqn:H2; [|done].
  cbn. intros H3 Hv Hlater.
  rewrite (colour_process_routes_none _ _ _ v H3 Hlater).
  rewrite (colour_process_route _ _ _ v H2). by rewrite decide_True.
Qed.

Lemma pos_process_routes G routes G' v :
  process_routes node_elements G routes = Ok G' →
  is_Some (vattr pos G' v) →
  is_Some (vattr pos G v) ∨
  ∃ route, route ∈ routes ∧ contributes node_elements route v.
Proof.
  revert G. induction routes as [|r routes IH]; intros G.
  - intros [= <-]. by left.
  - cbn [process_routes].
    destruct (process_route node_elements G r) as [G1|] eqn:H1; [|done].
    cbn. intros H2 Hv. destruct (IH _ H2 Hv) as [Hv1|(r' & ? & ?)].
    + destruct (pos_process_route _ _ _ v H1 Hv1); [by left|].
      right. exists r. set_solver.
    + right. exists r'. set_solver.
Qed.
End route_loop.

(** ** The edge view *)

Lemma normalise_swap a b : normalise (b, a) = normalise (a, b).
Proof. unfold normalise; cbn. repeat case_decide; f_equal; lia. Qed.

Lemma normalise_eq a b c d :
  normalise (a, b) = normalise (c, d) → (a, b) = (c, d) ∨ (a, b) = (d, c).
Proof. unfold normalise; cbn. repeat case_decide; intros [= -> ->]; auto. Qed.

Lemma edges_from_spec l seen a b :
  (a, b) ∈ edges_from l seen ↔
  ∃ (i : nat) nbrs,
    l !! i = Some (a, nbrs) ∧ b ∈ nbrs ∧ (b ∉ seen) ∧
    ∀ (j : nat) x, (j < i)%nat → l !! j = Some x → fst x ≠ b.
Proof.
  revert seen. induction l as [|[n nb] rest IH]; intros seen.
  - cbn. split; [by intros ?%not_elem_of_nil|]. by intros (i & ? & ? & _).
  - cbn [edges_from]. rewrite elem_of_app, list_elem_of_fmap, IH. split.
    + intros [(nbr & [= -> ->] & [Hs Hin%elem_of_elements]%list_elem_of_filter)
             |(i & nbrs & Hi & Hb & Hs & Hlt)].
      * exists 0%nat, nb. split_and!; [done..|]. intros; lia.
      * exists (S i), nbrs. split_and!; [done|done|set_solver|].
        intros [|j] x Hj; cbn; [intros [= <-]; set_solver|].
        apply Hlt. lia.
    + intros ([|i] & nbrs & Hi & Hb & Hs & Hlt); cbn in Hi.
      * injection Hi as -> ->. left. exists b. split; [done|].
        apply list_elem_of_filter. by rewrite elem_of_elements.
      * right. exists i, nbrs. split_and!; [done|done| |].
        -- specialize (Hlt 0%nat (n, nb)). cbn in Hlt.
           assert (n ≠ b) by (apply Hlt; [lia|done]). set_solver.
        -- intros j x Hj Hx. apply (Hlt (S j) x); [lia|done].
Qed.

Lemma edges_from_fst l seen a b : (a, b) ∈ edges_from l seen → a ∈ l.*1.
Proof.
  rewrite edges_from_spec. intros (i & nbrs & Hi & _).
  apply list_elem_of_fmap. exists (a, nbrs).
  split; [done|]. by eapply list_elem_of_lookup_2.
Qed.

Lemma edges_from_NoDup l seen : NoDup l.*1 → NoDup (edges_from l seen).
Proof.
  revert seen. induction l as [|[n nb] rest IH]; intros seen.
  - constructor.
  - cbn [edges_from fmap list_fmap fst]. intros [Hn Hrest]%NoDup_cons.
    apply NoDup_app. split_and!.
    + apply NoDup_fmap_2; [by intros ?? [=]|].
      apply NoDup_filter, NoDup_elements.
    + intros [a b] (nbr & [= -> ->] & _)%list_elem_of_fmap Hin.
      by apply edges_from_fst in Hin.
    + by apply IH.
Qed.

Section edge_view.
Context (G : Graph).
Implicit Types (u v : Z).

Lemma adj_lookup_index (i : nat) u nbrs :
  map_to_list (g_adj G) !! i = Some (u, nbrs) → neighbours G u = nbrs.
Proof.
  intros Hi%list_elem_of_lookup_2%elem_of_map_to_list.
  unfold neighbours. by rewrite Hi.
Qed.

Lemma adj_index_inj (i j : nat) u nb1 nb2 :
  map_to_list (g_adj G) !! i = Some (u, nb1) →
  map_to_list (g_adj G) !! j = Some (u, nb2) → i = j.
Proof.
  intros Hi Hj.
  eapply (NoDup_lookup _ i j u (NoDup_fst_map_to_list (g_adj G)));
    rewrite list_lookup_fmap; [by rewrite Hi|by rewrite Hj].
Qed.

Lemma edges_has_edge u v : (u, v) ∈ edges G → has_edge G u v.
Proof.
  unfold edges. rewrite edges_from_spec.
  intros (i & nbrs & Hi & Hv & _). unfold has_edge.
  by rewrite (adj_lookup_index _ _ _ Hi).
Qed.

Lemma edges_once u v : (u, v) ∈ edges G → (v, u) ∈ edges G → u = v.
Proof.
  unfold edges. rewrite !edges_from_spec.
  intros (i & nu & Hi & _ & _ & Hlti) (j & nv & Hj & _ & _ & Hltj).
  destruct (decide (u = v)) as [|Hne]; [done|]. exfalso.
  destruct (Nat.lt_total i j) as [Hlt|[->|Hlt]].
  - by apply (Hltj i (u, nu) Hlt Hi).
  - rewrite Hi in Hj. congruence.
  - by apply (Hlti j (v, nv) Hlt Hj).
Qed.

Lemma has_edge_index u v :
  has_edge G u v →
  ∃ (i : nat) nbrs, map_to_list (g_adj G) !! i = Some (u, nbrs) ∧ v ∈ nbrs.
Proof.
  unfold has_edge, neighbours. intros Hv.
  destruct (g_adj G !! u) as [nbrs|] eqn:Hu; [|set_solver].
  apply elem_of_map_to_list, list_elem_of_lookup_1 in Hu as [i Hi].
  by exists i, nbrs.
Qed.

(** Every edge of a well-formed graph is reported, in one of its two
    orientations. *)
Lemma has_edge_edges u v :
  graph_wf G → has_edge G u v → (u, v) ∈ edges G ∨ (v, u) ∈ edges G.
Proof.
  intros [_ Hsym] Huv. pose proof (Hsym _ _ Huv) as Hvu.
  destruct (has_edge_index _ _ Huv) as (i & nu & Hi & Hv).
  destruct (has_edge_index _ _ Hvu) as (j & nv & Hj & Hu).
  unfold edges. rewrite !edges_from_spec.
  destruct (decide (i ≤ j)%nat) as [Hle|Hgt].
  - left. exists i, nu. split_and!; [done|done|set_solver|].
    intros k [x nx] Hk Hx Heq. cbn in Heq. subst x.
    pose proof (adj_index_inj _ _ _ _ _ Hx Hj). lia.
  - right. exists j, nv. split_and!; [done|done|set_solver|].
    intros k [x nx] Hk Hx Heq. cbn in Heq. subst x.
    pose proof (adj_index_inj _ _ _ _ _ Hx Hi). lia.
Qed.

Lemma edges_NoDup : NoDup (edges G).
Proof. apply edges_from_NoDup, NoDup_fst_map_to_list. Qed.

Lemma normalise_edges_NoDup : NoDup (normalise <$> edges G).
Proof.
  apply NoDup_fmap_2_strong; [|apply edges_NoDup].
  intros [a b] [c d] Hab Hcd [[= -> ->]|[= -> ->]]%normalise_eq; [done|].
  by rewrite (edges_once _ _ Hab Hcd).
Qed.
End edge_view.

(** A graph has at most as many edges as a list that covers them. *)
Lemma number_of_edges_le G (cover : list (Z * Z)) :
  (∀ u v, (u, v) ∈ edges G → (u, v) ∈ cover ∨ (v, u) ∈ cover) →
  (number_of_edges G ≤ length cover)%nat.
Proof.
  intros Hcover. unfold number_of_edges.
  rewrite <- (length_fmap normalise (edges G)), <- (length_fmap normalise cover).
  apply submseteq_length, NoDup_submseteq; [apply normalise_edges_NoDup|].
  intros e ([a b] & -> & Hin)%list_elem_of_fmap.
  destruct (Hcover _ _ Hin) as [H|H].
  - by apply list_elem_of_fmap_2.
  - rewrite <- normalise_swap. by apply list_elem_of_fmap_2.
Qed.

(** ** The stop graph *)

(** C1 (evaluation at a failing input): the second stop of [broken_line]
    is not a key of the node mapping, and yet it is a vertex of the graph,
    created without attributes by the edge loop. *)
Theorem create_route_graph_dangling_vertex :
  ∃ G, create_route_graph [broken_line] broken_line_nodes = Ok G
       ∧ broken_line_nodes !! 2 = None
       ∧ g_node G !! 2 = Some no_attrs
       ∧ 2 ∈ dom (g_node G).
Proof.
  exists (add_edge
            (add_node empty_graph 1
               {| pos := Some (0%Q, 0%Q); name := Some "1";
                  colour := Some "#808080" |}) 1 2).
  split_and!; [vm_compute; reflexivity..|].
  apply elem_of_dom. vm_compute. by eexists.
Qed.

(** What does hold of the vertices: a vertex that carries a position is a
    key of the node mapping and the ref of a stop-role member. *)
Lemma create_route_graph_positioned routes node_elements G v :
  create_route_graph routes node_elements = Ok G →
  is_Some (vattr pos G v) →
  ∃ route, route ∈ routes ∧ contributes node_elements route v.
Proof.
  intros HG Hv. destruct (pos_process_routes _ _ _ _ v HG Hv) as [H|H]; [|done].
  unfold vattr in H; cbn in H. rewrite lookup_empty in H. by destruct H.
Qed.

(** C2 (evaluation at a failing input): a stop whose node record has no
    [tags] makes [create_route_graph] raise [KeyError]. *)
Theorem create_route_graph_untagged_node_raises :
  create_route_graph [bare_stop_line] bare_stop_nodes = Raise (KeyError "tags").
Proof. reflexivity. Qed.

(** What does hold: when every route has [members] and [tags] and every
    node record has [tags], [lon] and [lat], a graph is returned. *)
Lemma create_route_graph_total routes node_elements :
  (∀ route, route ∈ routes →
     is_Some (el_members route) ∧ is_Some (el_tags route)) →
  (∀ v node_data, node_elements !! v = Some node_data →
     node_complete node_data) →
  ∃ G, create_route_graph routes node_elements = Ok G.
Proof. apply process_routes_ok. Qed.

Lemma create_route_graph_wf routes node_elements G :
  create_route_graph routes node_elements = Ok G → graph_wf G.
Proof. apply process_routes_wf, empty_graph_wf. Qed.

Lemma empty_graph_no_edge u v : ¬ has_edge empty_graph u v.
Proof. unfold has_edge, neighbours; cbn. rewrite lookup_empty. set_solver. Qed.

(** A duplicate-free list with two different members has two elements. *)
Lemma NoDup_two_le {A} (l : list A) x y :
  NoDup l → x ∈ l → y ∈ l → x ≠ y → (2 ≤ length l)%nat.
Proof.
  intros Hl Hx Hy Hxy.
  change 2%nat with (length [x; y]).
  apply submseteq_length, NoDup_submseteq.
  - apply NoDup_cons. split; [set_solver|apply NoDup_singleton].
  - set_solver.
Qed.

(** C3: one route whose stop-role members are A, B, C in that order, all
    three in the node mapping (with the tags and coordinates of a node
    record): the graph has the vertices A, B, C and the edges A-B and
    B-C, and nothing else; these are two edges unless A is C. *)
Theorem create_route_graph_single_route
    (route : Element) (node_elements : gmap Z Element)
    (rtags : gmap string string) (members : list Member) (mA mB mC : Member) :
  el_tags route = Some rtags →
  el_members route = Some members →
  stop_comprehension members = [mA; mB; mC] →
  (∀ m, m ∈ [mA; mB; mC] →
     ∃ node_data, node_elements !! mem_ref m = Some node_data ∧
                  node_complete node_data) →
  ∃ G, create_route_graph [route] node_elements = Ok G
       ∧ dom (g_node G) = {[mem_ref mA; mem_ref mB; mem_ref mC]}
       ∧ (∀ u v, has_edge G u v ↔
            (u, v) = (mem_ref mA, mem_ref mB) ∨ (u, v) = (mem_ref mB, mem_ref mA) ∨
            (u, v) = (mem_ref mB, mem_ref mC) ∨ (u, v) = (mem_ref mC, mem_ref mB))
       ∧ (number_of_edges G ≤ 2)%nat
       ∧ (mem_ref mA ≠ mem_ref mC → number_of_edges G = 2%nat).
Proof.
  intros Ht Hm Hstops Hnodes.
  assert (Hrefs : stop_refs route = [mem_ref mA; mem_ref mB; mem_ref mC]).
  { unfold stop_refs. by rewrite Hm; cbn; rewrite Hstops. }
  assert (Hpairs : route_pairs route =
            [(mem_ref mA, mem_ref mB); (mem_ref mB, mem_ref mC)]).
  { unfold route_pairs. by rewrite Hrefs. }
  assert (Hin : ∀ v, v ∈ stop_refs route → v ∈ dom node_elements).
  { rewrite Hrefs. intros v Hv.
    assert (∃ m, m ∈ [mA; mB; mC] ∧ v = mem_ref m) as (m & Hmin & ->).
    { set_solver. }
    destruct (Hnodes m Hmin) as (nd & Hnd & _). by eapply elem_of_dom_2. }
  destruct (process_route_ok node_elements empty_graph route) as [G HG].
  { by rewrite Hm. }
  { by rewrite Ht. }
  { rewrite Hrefs. intros v nd Hv Hnd.
    assert (∃ m, m ∈ [mA; mB; mC] ∧ v = mem_ref m) as (m & Hmin & ->).
    { set_solver. }
    destruct (Hnodes m Hmin) as (nd' & Hnd' & Hc). congruence. }
  assert (Hedge : ∀ u v, has_edge G u v ↔
            (u, v) = (mem_ref mA, mem_ref mB) ∨ (u, v) = (mem_ref mB, mem_ref mA) ∨
            (u, v) = (mem_ref mB, mem_ref mC) ∨ (u, v) = (mem_ref mC, mem_ref mB)).
  { intros u v. rewrite (has_edge_process_route _ _ _ _ u v empty_graph_wf HG).
    rewrite Hpairs, !elem_of_cons, !elem_of_nil.
    pose proof (empty_graph_no_edge u v). naive_solver. }
  assert (Hle : (number_of_edges G ≤ 2)%nat).
  { change 2%nat with
      (length [(mem_ref mA, mem_ref mB); (mem_ref mB, mem_ref mC)]).
    apply number_of_edges_le. intros u v Huv%edges_has_edge%Hedge.
    rewrite !elem_of_cons, !elem_of_nil. naive_solver. }
  exists G. unfold create_route_graph. cbn [process_routes]. rewrite HG. cbn.
  split_and!; [done| |done|done|].
  - rewrite (dom_node_process_route _ _ _ _ HG), Hpairs. cbn.
    rewrite dom_empty_L. rewrite Hrefs in Hin |- *.
    apply set_eq. intros v. specialize (Hin v). set_solver.
  - intros Hne. apply Nat.le_antisymm; [done|].
    pose proof (process_route_wf _ _ _ _ empty_graph_wf HG) as Hwf.
    assert (HAB : has_edge G (mem_ref mA) (mem_ref mB)) by (apply Hedge; auto).
    assert (HBC : has_edge G (mem_ref mB) (mem_ref mC)) by (apply Hedge; auto).
    destruct (has_edge_edges _ _ _ Hwf HAB) as [H1|H1],
      (has_edge_edges _ _ _ Hwf HBC) as [H2|H2];
      apply (NoDup_two_le _ _ _ (edges_NoDup G) H1 H2);
      intros [=]; congruence.
Qed.

Lemma create_route_graph_single_route_witness :
  ∃ G, create_route_graph [three_stop_line] city_nodes = Ok G
       ∧ dom (g_node G) = {[1; 2; 3]}
       ∧ (∀ u v, has_edge G u v ↔
            (u, v) = (1, 2) ∨ (u, v) = (2, 1) ∨ (u, v) = (2, 3) ∨ (u, v) = (3, 2))
       ∧ (number_of_edges G ≤ 2)%nat
       ∧ (1 ≠ 3 → number_of_edges G = 2%nat).
Proof.
  apply (create_route_graph_single_route three_stop_line city_nodes
           {[ "route" := "subway" ]}
           [stop 1; {| mem_ref := 7; mem_role := "platform" |}; stop 2; stop 3]
           (stop 1) (stop 2) (stop 3)); [reflexivity..|].
  intros m Hm. apply list_elem_of_In in Hm. cbn in Hm.
  destruct Hm as [<-|[<-|[<-|[]]]]; eexists;
    (split; [vm_compute; reflexivity|repeat split; eexists; reflexivity]).
Defined.

(** C4: for every route, each consecutive pair of its stop-role members is
    joined by an edge, whether or not the lookups of the two refs
    succeeded; the graph has no other edges; and processing a route adds
    at most [len(stop_members) - 1] edges to the graph built from the
    routes before it. *)
Theorem create_route_graph_edges
    (routes : list Element) (node_elements : gmap Z Element) (G : Graph) :
  create_route_graph routes node_elements = Ok G →
  (∀ route (i : nat) a b, route ∈ routes →
     stop_refs route !! i = Some a → stop_refs route !! S i = Some b →
     has_edge G a b)
  ∧ (∀ u v, has_edge G u v →
       ∃ route (i : nat), route ∈ routes ∧
         ((stop_refs route !! i = Some u ∧ stop_refs route !! S i = Some v) ∨
          (stop_refs route !! i = Some v ∧ stop_refs route !! S i = Some u)))
  ∧ (∀ earlier route later, routes = earlier ++ route :: later →
       ∃ G0 G1,
         create_route_graph earlier node_elements = Ok G0 ∧
         create_route_graph (earlier ++ [route]) node_elements = Ok G1 ∧
         (number_of_edges G1 ≤
            number_of_edges G0 + (length (stop_refs route) - 1))%nat).
Proof.
  intros HG. split_and!.
  - intros route i a b Hr Ha Hb.
    apply (has_edge_process_routes _ _ _ _ a b empty_graph_wf HG).
    right. exists route. split; [done|]. left.
    apply adjacent_pairs_lookup. eauto.
  - intros u v Huv.
    apply (has_edge_process_routes _ _ _ _ u v empty_graph_wf HG) in Huv
      as [Huv|(route & Hr & Hp)]; [by apply empty_graph_no_edge in Huv|].
    unfold route_pairs in Hp. rewrite !adjacent_pairs_lookup in Hp.
    destruct Hp as [(i & ? & ?)|(i & ? & ?)]; exists route, i; eauto.
  - intros earlier route later ->. unfold create_route_graph in *.
    rewrite process_routes_app in HG. rewrite process_routes_app.
    destruct (process_routes node_elements empty_graph earlier)
      as [G0|] eqn:H0; [|done].
    cbn [mbind result_bind process_routes] in HG |- *.
    destruct (process_route node_elements G0 route) as [G1|] eqn:H1; [|done].
    exists G0, G1. split_and!; [done..|].
    rewrite <- adjacent_pairs_length.
    change (number_of_edges G0) with (length (edges G0)).
    rewrite <- length_app.
    pose proof (process_routes_wf _ _ _ _ empty_graph_wf H0) as Hwf.
    apply number_of_edges_le. intros u v Huv%edges_has_edge.
    apply (has_edge_process_route _ _ _ _ u v Hwf H1) in Huv.
    rewrite !elem_of_app. fold (route_pairs route).
    destruct Huv as [Huv|[?|?]]; [|by auto..].
    destruct (has_edge_edges _ _ _ Hwf Huv); auto.
Qed.

Lemma create_route_graph_edges_witness :
  ∃ G, create_route_graph [broken_line] broken_line_nodes = Ok G
       ∧ has_edge G 1 2
       ∧ (number_of_edges G ≤ 1)%nat.
Proof.
  exists (add_edge
            (add_node empty_graph 1
               {| pos := Some (0%Q, 0%Q); name := Some "1";
                  colour := Some "#808080" |}) 1 2).
  assert (HG : create_route_graph [broken_line] broken_line_nodes =
                 Ok (add_edge
                       (add_node empty_graph 1
                          {| pos := Some (0%Q, 0%Q); name := Some "1";
                             colour := Some "#808080" |}) 1 2))
    by (vm_compute; reflexivity).
  destruct (create_route_graph_edges _ _ _ HG) as (Hpairs & _ & Hcount).
  split_and!; [exact HG| |].
  - apply (Hpairs broken_line 0%nat 1 2); [|reflexivity..].
    apply list_elem_of_In. left. reflexivity.
  - destruct (Hcount [] broken_line [] eq_refl) as (G0 & G1 & H0 & H1 & Hle).
    cbn [app] in H1. rewrite HG in H1. injection H1 as <-.
    injection H0 as <-. exact Hle.
Defined.

Lemma route_colour_spec route : route_colour route = colour_or_gray route.
Proof.
  unfold route_colour, colour_or_gray, get.
  destruct (el_tags route); cbn; [done|by rewrite lookup_empty].
Qed.

(** The last element of a list that satisfies a decidable property. *)
Lemma last_such {A} (P : A → Prop) `{∀ x, Decision (P x)} (l : list A) x :
  x ∈ l → P x →
  ∃ l1 y l2, l = l1 ++ y :: l2 ∧ P y ∧ ∀ z, z ∈ l2 → ¬ P z.
Proof.
  revert x. induction l as [|a l IH]; intros x Hin HP.
  { by apply not_elem_of_nil in Hin. }
  destruct (decide (Exists P l)) as [(y & Hy & HPy)%Exists_exists|Hnone].
  - destruct (IH y Hy HPy) as (l1 & z & l2 & -> & ? & ?).
    by exists (a :: l1), z, l2.
  - rewrite Exists_exists in Hnone.
    apply elem_of_cons in Hin as [->|Hin]; [|naive_solver].
    exists [], a, l. naive_solver.
Qed.

(** C8: the colour of a vertex is the [colour] tag of the last processed
    route that contributed it, or [#808080] when that route has no such
    tag; every coloured vertex has such a route; and of two routes that
    share a stop, the second one decides the stop's colour. *)
Theorem create_route_graph_colour
    (routes : list Element) (node_elements : gmap Z Element) (G : Graph) :
  create_route_graph routes node_elements = Ok G →
  (∀ earlier route later v, routes = earlier ++ route :: later →
     contributes node_elements route v →
     (∀ r, r ∈ later → ¬ contributes node_elements r v) →
     vattr colour G v = Some (colour_or_gray route))
  ∧ (∀ v c, vattr colour G v = Some c →
       ∃ earlier route later, routes = earlier ++ route :: later ∧
         contributes node_elements route v ∧
         (∀ r, r ∈ later → ¬ contributes node_elements r v) ∧
         c = colour_or_gray route)
  ∧ (∀ first second C, routes = [first; second] →
       contributes node_elements first C →
       contributes node_elements second C →
       vattr colour G C = Some (colour_or_gray second)).
Proof.
  intros HG.
  assert (Hlast : ∀ earlier route later v, routes = earlier ++ route :: later →
            contributes node_elements route v →
            (∀ r, r ∈ later → ¬ contributes node_elements r v) →
            vattr colour G v = Some (colour_or_gray route)).
  { intros earlier route later v -> Hv Hlater. rewrite <- route_colour_spec.
    by eapply colour_process_routes_last. }
  split_and!; [done| |].
  - intros v c Hc.
    destruct (decide (Exists (λ r, contributes node_elements r v) routes))
      as [(r & Hr & Hv)%Exists_exists|Hnone].
    + destruct (last_such (λ r, contributes node_elements r v) routes r Hr Hv)
        as (earlier & route & later & Heq & Hroute & Hlater).
      exists earlier, route, later. split_and!; [done..|].
      rewrite (Hlast _ _ _ _ Heq Hroute Hlater) in Hc. congruence.
    + rewrite Exists_exists in Hnone.
      rewrite (colour_process_routes_none _ _ _ _ v HG) in Hc by naive_solver.
      unfold vattr in Hc; cbn in Hc. by rewrite lookup_empty in Hc.
  - intros first second C -> _ HC.
    apply (Hlast [first] second [] C); [done..|].
    intros r Hr. by apply not_elem_of_nil in Hr.
Qed.

Lemma create_route_graph_colour_witness :
  ∃ G, create_route_graph [red_line; green_line; plain_line] city_nodes = Ok G
       ∧ vattr colour G 3 = Some "green"
       ∧ vattr colour G 4 = Some "#808080".
Proof.
  destruct (create_route_graph [red_line; green_line; plain_line] city_nodes)
    as [G|e] eqn:HG; [|vm_compute in HG; discriminate HG].
  exists G. split; [reflexivity|].
  destruct (create_route_graph_colour _ _ _ HG) as (Hlast & _ & _).
  split.
  - apply (Hlast [red_line] green_line [plain_line] 3 eq_refl).
    + split; [apply list_elem_of_In; cbn; auto|].
      apply elem_of_dom. vm_compute. eexists. reflexivity.
    + intros r Hr [Hin _]. apply list_elem_of_In in Hr. cbn in Hr.
      destruct Hr as [<-|[]]. apply list_elem_of_In in Hin. cbn in Hin.
      destruct Hin as [Hin|[Hin|[]]]; discriminate Hin.
  - apply (Hlast [red_line; green_line] plain_line [] 4 eq_refl).
    + split; [apply list_elem_of_In; cbn; auto|].
      apply elem_of_dom. vm_compute. eexists. reflexivity.
    + intros r Hr. apply list_elem_of_In in Hr. destruct Hr.
Defined.

(** ** The map *)

Lemma lookup_get_node_attributes {A} (field : NodeAttrs → option A) G v :
  get_node_attributes G field !! v = vattr field G v.
Proof. unfold get_node_attributes, vattr. apply lookup_omap. Qed.




(** *** The centre *)






(** The positions that [get_node_attributes] collects are those of the
    vertices that carry one, each once. *)
Lemma positions_values G (vs : list Z) :
  NoDup vs → (∀ v, v ∈ vs ↔ is_Some (vattr pos G v)) →
  values (get_node_attributes G pos) ≡ₚ
    (λ v, default (0%Q, 0%Q) (vattr pos G v)) <$> vs.
Proof.
  intros Hnd Hvs. unfold values.
  set (M := get_node_attributes G pos).
  assert (Hsnd : (map_to_list M).*2 =
            (λ v, default (0%Q, 0%Q) (vattr pos G v)) <$> (map_to_list M).*1).
  { rewrite <- list_fmap_compose. apply list_fmap_ext.
    intros i [k p] Hi%list_elem_of_lookup_2%elem_of_map_to_list. cbn.
    unfold M in Hi. rewrite lookup_get_node_attributes in Hi. by rewrite Hi. }
  rewrite Hsnd. apply fmap_Permutation, NoDup_Permutation.
  - apply NoDup_fst_map_to_list.
  - done.
  - intros v. rewrite Hvs, <- lookup_get_node_attributes. fold M.
    rewrite list_elem_of_fmap. split.
    + intros ([k p] & -> & Hin%elem_of_map_to_list). by eexists.
    + intros [p Hp]. exists (v, p). by rewrite elem_of_map_to_list.
Qed.



(** *** The lines *)

Lemma line_of_spec (positions : gmap Z (Q * Q)) e line :
  line ∈ line_of positions e ↔
  ∃ pu pv, positions !! e.1 = Some pu ∧ positions !! e.2 = Some pv ∧
           line = line_between pu pv.
Proof.
  unfold line_of.
  destruct (positions !! e.1) as [pu|], (positions !! e.2) as [pv|];
    rewrite ?list_elem_of_singleton, ?elem_of_nil; naive_solver.
Qed.

Lemma line_of_length G (l : list (Z * Z)) :
  length (l ≫= line_of (get_node_attributes G pos)) =
    length (filter (positioned G) l).
Proof.
  induction l as [|e l IH]; [done|].
  cbn [mbind list_bind]. rewrite length_app, IH, filter_cons.
  unfold line_of. rewrite !lookup_get_node_attributes.
  destruct (decide (positioned G e)) as [[[pu Hu] [pv Hv]]|Hn].
  - by rewrite Hu, Hv.
  - destruct (vattr pos G e.1) as [pu|] eqn:Hu; [|done].
    destruct (vattr pos G e.2) as [pv|] eqn:Hv; [|done].
    exfalso. apply Hn. unfold positioned. rewrite Hu, Hv. by split.
Qed.

(** C10: on the returned map, every line joins the positions of the two
    endpoints of a graph edge; every edge whose endpoints both carry a
    position is drawn (from one end or the other); and there is one line
    per such edge, so an edge with an endpoint without position gives no
    line. *)
Theorem create_folium_map_lines (G : Graph) (zoom_start : Z) (m : FoliumMap) :
  graph_wf G →
  create_folium_map G zoom_start = Ok m →
  (∀ line, line ∈ map_polylines m →
     ∃ u v pu pv, has_edge G u v ∧
       vattr pos G u = Some pu ∧ vattr pos G v = Some pv ∧
       line = line_between pu pv)
  ∧ (∀ u v pu pv, has_edge G u v →
       vattr pos G u = Some pu → vattr pos G v = Some pv →
       line_between pu pv ∈ map_polylines m ∨
       line_between pv pu ∈ map_polylines m)
  ∧ length (map_polylines m) = length (filter (positioned G) (edges G)).
Proof.
  intros Hwf Hm. unfold create_folium_map in Hm.
  case_decide; [done|]. injection Hm as <-. cbn [map_polylines].
  split_and!.
  - intros line ([u v] & Hline & Huv)%list_elem_of_bind.
    apply line_of_spec in Hline as (pu & pv & Hu & Hv & ->).
    rewrite lookup_get_node_attributes in Hu, Hv.
    exists u, v, pu, pv. split_and!; [|done..]. by apply edges_has_edge.
  - intros u v pu pv Huv Hu Hv.
    destruct (has_edge_edges _ _ _ Hwf Huv) as [Hin|Hin]; [left|right];
      apply list_elem_of_bind; eexists; (split; [|exact Hin]);
      apply line_of_spec; eexists _, _;
      by rewrite !lookup_get_node_attributes.
  - apply line_of_length.
Qed.

Lemma two_point_graph_wf : graph_wf two_point_graph.
Proof.
  unfold two_point_graph.
  repeat first [apply add_edge_wf | apply add_node_wf | apply empty_graph_wf].
Qed.

Lemma create_folium_map_lines_witness :
  ∃ m, create_folium_map two_point_graph 12 = Ok m
       ∧ has_edge two_point_graph 2 9
       ∧ vattr pos two_point_graph 9 = None
       ∧ length (map_polylines m) = 1%nat.
Proof.
  destruct (create_folium_map two_point_graph 12) as [m|e] eqn:Hm;
    [|vm_compute in Hm; discriminate Hm].
  exists m. split; [reflexivity|].
  destruct (create_folium_map_lines _ _ _ two_point_graph_wf Hm)
    as (_ & _ & Hlen).
  split_and!.
  - unfold has_edge. apply elem_of_elements. vm_compute. left.
  - vm_compute. reflexivity.
  - rewrite Hlen. vm_compute. reflexivity.
Defined.

(** * Further properties *)

(** ** The fetch *)

(** [extract_osm_geodata] returns the decoded body exactly for the status
    200 with a JSON body, raises [HTTPError] exactly for the statuses 400
    to 599, and for every other status returns [None] without raising. *)
Theorem extract_osm_geodata_by_status {A} (response : Response A) :
  (∀ data, extract_osm_geodata response = Returns (Some data) ↔
     status_code response = 200 ∧ json_body response = Some data)
  ∧ (∀ status, extract_osm_geodata response = Raises (HTTPError status) ↔
       status = status_code response ∧ 400 ≤ status < 600)
  ∧ (extract_osm_geodata response = Returns None ↔
       status_code response ≠ 200 ∧
       ¬ (400 ≤ status_code response < 600))
  ∧ (extract_osm_geodata response = Raises JSONDecodeError ↔
       status_code response = 200 ∧ json_body response = None).
Proof.
  unfold extract_osm_geodata, raise_for_status, json.
  destruct response as [status body]; cbn.
  repeat case_decide; destruct body; cbn; split_and!; intros;
    split; intros; destruct_and?; simplify_eq; try done; lia.
Qed.

(** ** The stop-role filter *)

Lemma stop_comprehension_filter members :
  stop_comprehension members =
    filter (λ member, contains "stop" (mem_role member) = true) members.
Proof.
  induction members as [|m members IH]; [done|].
  cbn [stop_comprehension]. rewrite filter_cons, IH.
  destruct (contains "stop" (mem_role m)); by case_decide.
Qed.

(** The stop members of a route are exactly its members whose role has
    [stop] somewhere inside it, in member order. *)
Theorem stop_comprehension_substring (members : list Member) :
  sublist (stop_comprehension members) members
  ∧ ∀ member, member ∈ stop_comprehension members ↔
      member ∈ members ∧
      ∃ before after, mem_role member = before +:+ "stop" +:+ after.
Proof.
  rewrite stop_comprehension_filter. split; [apply sublist_filter|].
  intros member. by rewrite list_elem_of_filter, contains_spec, (comm and).
Qed.

(** ** When the builder gets through *)

Section builder_errors.
Context (node_elements : gmap Z Element).
Implicit Types (G : Graph) (route : Element) (e : exn).

Lemma add_stop_ok_iff route G node :
  (∃ G', add_stop route node_elements G node = Ok G') ↔
  ∀ node_data, node_elements !! mem_ref node = Some node_data →
    is_Some (el_tags route) ∧ node_complete node_data.
Proof.
  split.
  - intros [G' [[Hn _]|(nd & ? & ? & ? & ? & Hn & Ht & Hr & Hlon & Hlat & _)]
             %add_stop_inv] nd' Hnd'; [congruence|].
    assert (nd' = nd) as -> by congruence.
    unfold node_complete. rewrite Ht, Hr, Hlon, Hlat. eauto.
  - intros Hn. unfold add_stop.
    destruct (node_elements !! mem_ref node) as [nd|]; [|by eexists].
    destruct (Hn nd eq_refl) as ([? ->] & [? ->] & [? ->] & [? ->]).
    by eexists.
Qed.

Lemma add_stop_raise route G node e :
  add_stop route node_elements G node = Raise e → builder_key e.
Proof.
  unfold add_stop, builder_key.
  destruct (node_elements !! mem_ref node) as [nd|]; [|done].
  destruct (el_tags nd); [|intros [= <-]; eexists; split; [done|set_solver]].
  destruct (el_tags route); [|intros [= <-]; eexists; split; [done|set_solver]].
  destruct (el_lon nd); [|intros [= <-]; eexists; split; [done|set_solver]].
  destruct (el_lat nd); [|intros [= <-]; eexists; split; [done|set_solver]].
  done.
Qed.

Lemma add_stops_ok_iff route G stop_nodes :
  (∃ G', add_stops route node_elements G stop_nodes = Ok G') ↔
  ∀ node node_data, node ∈ stop_nodes →
    node_elements !! mem_ref node = Some node_data →
    is_Some (el_tags route) ∧ node_complete node_data.
Proof.
  revert G. induction stop_nodes as [|node rest IH]; intros G.
  - split; [|by eexists]. intros _ node nd Hin. by apply not_elem_of_nil in Hin.
  - cbn [add_stops]. split.
    + intros [G' HG'] n nd Hin.
      destruct (add_stop route node_elements G node) as [G1|] eqn:H1; [|done].
      apply elem_of_cons in Hin as [->|Hin].
      * apply (proj1 (add_stop_ok_iff route G node)). by eexists.
      * apply (proj1 (IH G1)); [by eexists|done].
    + intros Hall.
      destruct (proj2 (add_stop_ok_iff route G node)) as [G1 ->].
      { intros nd. apply Hall. set_solver. }
      cbn. apply IH. intros n nd Hin. apply Hall. set_solver.
Qed.

Lemma add_stops_raise route G stop_nodes e :
  add_stops route node_elements G stop_nodes = Raise e → builder_key e.
Proof.
  revert G. induction stop_nodes as [|node rest IH]; intros G; [done|].
  cbn [add_stops].
  destruct (add_stop route node_elements G node) as [G1|e1] eqn:H1; cbn.
  - apply IH.
  - intros [= <-]. by eapply add_stop_raise.
Qed.

Lemma process_route_ok_iff G route :
  (∃ G', process_route node_elements G route = Ok G') ↔
  route_ready node_elements route.
Proof.
  unfold process_route, route_ready, stop_refs.
  destruct (el_members route) as [members|]; cbn.
  - transitivity
      (∃ G1, add_stops route node_elements G (stop_comprehension members) = Ok G1).
    { destruct (add_stops _ _ _ _); cbn; split; intros [? ?]; by eexists. }
    rewrite add_stops_ok_iff. split.
    + intros Hall. split; [by eexists|].
      intros v nd (node & -> & Hin)%list_elem_of_fmap. by apply Hall.
    + intros [_ Hall] node nd Hin. apply Hall. by apply list_elem_of_fmap_2.
  - split; [by intros [? ?]|]. by intros [[? ?] _].
Qed.

Lemma process_route_raise G route e :
  process_route node_elements G route = Raise e → builder_key e.
Proof.
  unfold process_route.
  destruct (el_members route) as [members|]; cbn.
  - destruct (add_stops _ _ _ _) eqn:H1; cbn; [done|].
    intros [= <-]. by eapply add_stops_raise.
  - intros [= <-]. eexists. split; [done|set_solver].
Qed.

Lemma process_routes_ok_iff G routes :
  (∃ G', process_routes node_elements G routes = Ok G') ↔
  ∀ route, route ∈ routes → route_ready node_elements route.
Proof.
  revert G. induction routes as [|r routes IH]; intros G.
  - split; [|by eexists]. intros _ r Hin. by apply not_elem_of_nil in Hin.
  - cbn [process_routes]. split.
    + intros [G' HG'] route Hin.
      destruct (process_route node_elements G r) as [G1|] eqn:H1; [|done].
      apply elem_of_cons in Hin as [->|Hin].
      * apply (process_route_ok_iff G). by eexists.
      * apply (proj1 (IH G1)); [by eexists|done].
    + intros Hall.
      destruct (proj2 (process_route_ok_iff G r)) as [G1 ->].
      { apply Hall. set_solver. }
      cbn. apply IH. intros route Hin. apply Hall. set_solver.
Qed.

Lemma process_routes_raise G routes e :
  process_routes node_elements G routes = Raise e → builder_key e.
Proof.
  revert G. induction routes as [|r routes IH]; intros G; [done|].
  cbn [process_routes].
  destruct (process_route node_elements G r) as [G1|e1] eqn:H1; cbn.
  - apply IH.
  - intros [= <-]. by eapply process_route_raise.
Qed.
End builder_errors.

(** [create_route_graph] returns a graph exactly when every route has
    [members] and, for every stop ref that is a key of the node mapping,
    the route has [tags] and the node record has [tags], [lon] and [lat].
    Otherwise it raises a [KeyError] for one of these four keys, and the
    first route without [members] after routes that went through raises
    [KeyError] for [members]. *)
Theorem create_route_graph_ok_iff
    (routes : list Element) (node_elements : gmap Z Element) :
  ((∃ G, create_route_graph routes node_elements = Ok G) ↔
     ∀ route, route ∈ routes → route_ready node_elements route)
  ∧ (∀ e, create_route_graph routes node_elements = Raise e →
       ∃ key, e = KeyError key ∧ key ∈ ["members"; "tags"; "lon"; "lat"])
  ∧ (∀ earlier route later, routes = earlier ++ route :: later →
       (∀ r, r ∈ earlier → route_ready node_elements r) →
       el_members route = None →
       create_route_graph routes node_elements = Raise (KeyError "members")).
Proof.
  split_and!.
  - apply process_routes_ok_iff.
  - apply process_routes_raise.
  - intros earlier route later -> Hready Hm. unfold create_route_graph.
    rewrite process_routes_app.
    destruct (proj2 (process_routes_ok_iff node_elements empty_graph earlier)
                Hready) as [G0 ->].
    cbn. unfold process_route. by rewrite Hm.
Qed.

(** ** The shape of the stop graph *)

(** The returned graph is undirected, and both ends of each of its edges
    are among its vertices. *)
Theorem create_route_graph_undirected
    (routes : list Element) (node_elements : gmap Z Element) (G : Graph) :
  create_route_graph routes node_elements = Ok G →
  (∀ u v, has_edge G u v → has_edge G v u)
  ∧ (∀ u v, has_edge G u v → u ∈ dom (g_node G) ∧ v ∈ dom (g_node G)).
Proof.
  intros HG%create_route_graph_wf. split.
  - apply HG.
  - intros u v. by apply has_edge_dom.
Qed.

Lemma create_route_graph_undirected_witness :
  ∃ G, create_route_graph [broken_line] broken_line_nodes = Ok G
       ∧ has_edge G 2 1 ∧ 2 ∈ dom (g_node G).
Proof.
  destruct (create_route_graph [broken_line] broken_line_nodes)
    as [G|e] eqn:HG; [|vm_compute in HG; discriminate HG].
  exists G. split; [reflexivity|].
  destruct (create_route_graph_undirected _ _ _ HG) as [Hsym Hdom].
  assert (H12 : has_edge G 1 2).
  { injection HG as <-. unfold has_edge. apply elem_of_elements.
    vm_compute. left. }
  split; [by apply Hsym|]. by apply (Hdom 1 2).
Defined.

Lemma adjacent_pairs_endpoints l v :
  v ∈ (adjacent_pairs l).*1 ∨ v ∈ (adjacent_pairs l).*2 ↔
  v ∈ l ∧ (2 ≤ length l)%nat.
Proof.
  split.
  - intros Hv.
    assert (∃ a b, (a, b) ∈ adjacent_pairs l ∧ (v = a ∨ v = b))
      as (a & b & Hab & Hor).
    { destruct Hv as [([a b] & -> & ?)%list_elem_of_fmap
                     |([a b] & -> & ?)%list_elem_of_fmap]; eauto. }
    split.
    + destruct (adjacent_pairs_elem _ _ _ Hab). by destruct Hor as [->| ->].
    + apply adjacent_pairs_lookup in Hab as (i & _ & Hi%lookup_lt_Some). lia.
  - intros [(i & Hi)%list_elem_of_lookup_1 Hlen].
    pose proof (lookup_lt_Some _ _ _ Hi) as Hlt.
    destruct (decide (S i < length l)%nat) as [Hnext|Hlast].
    + destruct (lookup_lt_is_Some_2 l (S i) Hnext) as [b Hb].
      left. apply list_elem_of_fmap. exists (v, b). split; [done|].
      apply adjacent_pairs_lookup. eauto.
    + destruct i as [|i]; [lia|].
      destruct (lookup_lt_is_Some_2 l i) as [a Ha]; [lia|].
      right. apply list_elem_of_fmap. exists (a, v). split; [done|].
      apply adjacent_pairs_lookup. eauto.
Qed.

Lemma dom_node_process_routes node_elements G routes G' v :
  process_routes node_elements G routes = Ok G' →
  v ∈ dom (g_node G') ↔
    v ∈ dom (g_node G) ∨
    ∃ route, route ∈ routes ∧ v ∈ stop_refs route ∧
      (v ∈ dom node_elements ∨ (2 ≤ length (stop_refs route))%nat).
Proof.
  revert G. induction routes as [|r routes IH]; intros G.
  - intros [= <-]. split; [by left|]. intros [|(r & Hr & _)]; [done|].
    by apply not_elem_of_nil in Hr.
  - cbn [process_routes].
    destruct (process_route node_elements G r) as [G1|] eqn:H1; [|done].
    cbn. intros H2. rewrite (IH _ H2), (dom_node_process_route _ _ _ _ H1).
    rewrite !elem_of_union, elem_of_intersection, !elem_of_list_to_set.
    pose proof (adjacent_pairs_endpoints (stop_refs r) v) as Hends.
    fold (route_pairs r) in Hends.
    setoid_rewrite elem_of_cons. split.
    + intros [[[[?|[? ?]]|Hp]|Hp]|(r' & ? & ? & ?)]; eauto 8.
      * right. exists r. naive_solver.
      * right. exists r. naive_solver.
    + intros [?|(r' & [->|?] & ? & [?|?])]; eauto 8.
      destruct (proj2 Hends) as [?|?]; eauto.
Qed.

(** The vertices of the returned graph are exactly the stop refs that are
    keys of the node mapping, together with every stop ref of a route
    that has two or more stop members. *)
Theorem create_route_graph_vertices
    (routes : list Element) (node_elements : gmap Z Element) (G : Graph) :
  create_route_graph routes node_elements = Ok G →
  ∀ v, v ∈ dom (g_node G) ↔
    ∃ route, route ∈ routes ∧ v ∈ stop_refs route ∧
      (v ∈ dom node_elements ∨ (2 ≤ length (stop_refs route))%nat).
Proof.
  intros HG v. rewrite (dom_node_process_routes _ _ _ _ v HG).
  cbn. rewrite dom_empty_L. set_solver.
Qed.

Lemma create_route_graph_vertices_witness :
  ∃ G, create_route_graph [broken_line] broken_line_nodes = Ok G
       ∧ 2 ∈ dom (g_node G).
Proof.
  destruct (create_route_graph [broken_line] broken_line_nodes)
    as [G|e] eqn:HG; [|vm_compute in HG; discriminate HG].
  exists G. split; [reflexivity|].
  apply (create_route_graph_vertices _ _ _ HG 2).
  exists broken_line. split; [apply list_elem_of_In; left; reflexivity|].
  split; [apply list_elem_of_In; right; left; reflexivity|].
  right. vm_compute. apply le_n.
Defined.

(** ** Attributes that depend on the node record only *)

Section per_vertex_attribute.
Context {A : Type} (field : NodeAttrs → option A) (value : Z → option A).
Context (node_elements : gmap Z Element).
Context (Hnone : field no_attrs = None).
Context (Hstop : ∀ route G node G' v,
  add_stop route node_elements G node = Ok G' →
  vattr field G' v =
    if decide (v = mem_ref node ∧ v ∈ dom node_elements)
    then value v else vattr field G v).

Lemma field_add_stops route G stop_nodes G' v :
  add_stops route node_elements G stop_nodes = Ok G' →
  vattr field G' v =
    if decide (v ∈ mem_ref <$> stop_nodes ∧ v ∈ dom node_elements)
    then value v else vattr field G v.
Proof.
  revert G. induction stop_nodes as [|node rest IH]; intros G.
  - intros [= <-]. rewrite decide_False; [done|]. set_solver.
  - cbn [add_stops].
    destruct (add_stop route node_elements G node) as [G1|] eqn:H1; [|done].
    cbn. intros H2. rewrite (IH _ H2), (Hstop _ _ _ _ v H1).
    repeat case_decide; set_solver.
Qed.

Lemma field_process_route G route G' v :
  process_route node_elements G route = Ok G' →
  vattr field G' v =
    if decide (contributes node_elements route v)
    then value v else vattr field G v.
Proof.
  intros (members & G1 & _ & H1 & Hrefs & ->)%process_route_inv.
  rewrite vattr_add_pairs by done. rewrite (field_add_stops _ _ _ _ v H1).
  unfold contributes. rewrite Hrefs. repeat case_decide; naive_solver.
Qed.

Lemma field_process_routes G routes G' v :
  process_routes node_elements G routes = Ok G' →
  vattr field G' v =
    if decide (Exists (λ route, contributes node_elements route v) routes)
    then value v else vattr field G v.
Proof.
  revert G. induction routes as [|r routes IH]; intros G.
  - intros [= <-]. rewrite decide_False; [done|]. by intros ?%Exists_nil.
  - cbn [process_routes].
    destruct (process_route node_elements G r) as [G1|] eqn:H1; [|done].
    cbn. intros H2. rewrite (IH _ H2), (field_process_route _ _ _ v H1).
    repeat case_decide; try done.
    + exfalso. rewrite Exists_cons in *. naive_solver.
    + exfalso. rewrite Exists_cons in *. naive_solver.
    + exfalso. rewrite Exists_cons in *. naive_solver.
Qed.
End per_vertex_attribute.

Lemma pos_add_stop node_elements route G node G' v :
  add_stop route node_elements G node = Ok G' →
  vattr pos G' v =
    if decide (v = mem_ref node ∧ v ∈ dom node_elements)
    then node_elements !! v ≫= node_pos else vattr pos G v.
Proof.
  intros [[Hn ->]|(nd & ? & ? & lon & lat & Hn & _ & _ & Hlon & Hlat & ->)]
    %add_stop_inv.
  - apply (not_elem_of_dom (D := gset Z)) in Hn.
    rewrite decide_False; [done|]. naive_solver.
  - rewrite (vattr_add_node pos _ _ _ _ (lon, lat)) by done.
    pose proof (elem_of_dom_2 (D := gset Z) _ _ _ Hn).
    repeat case_decide; try naive_solver. subst v.
    rewrite Hn. cbn. unfold node_pos. by rewrite Hlon, Hlat.
Qed.

Lemma name_add_stop node_elements route G node G' v :
  add_stop route node_elements G node = Ok G' →
  vattr name G' v =
    if decide (v = mem_ref node ∧ v ∈ dom node_elements)
    then node_name v <$> node_elements !! v else vattr name G v.
Proof.
  intros [[Hn ->]|(nd & ntags & ? & lon & lat & Hn & Ht & _ & _ & _ & ->)]
    %add_stop_inv.
  - apply (not_elem_of_dom (D := gset Z)) in Hn.
    rewrite decide_False; [done|]. naive_solver.
  - rewrite (vattr_add_node name _ _ _ _
               (get "name" ntags (pretty (mem_ref node)))) by done.
    pose proof (elem_of_dom_2 (D := gset Z) _ _ _ Hn).
    repeat case_decide; try naive_solver. subst v.
    rewrite Hn. cbn. unfold node_name, get. by rewrite Ht.
Qed.

Lemma contributed_vertex routes node_elements G v :
  create_route_graph routes node_elements = Ok G →
  v ∈ dom (g_node G) → v ∈ dom node_elements →
  Exists (λ route, contributes node_elements route v) routes.
Proof.
  intros HG Hv Hn.
  apply (dom_node_process_routes _ _ _ _ v HG) in Hv
    as [Hv|(r & Hr & Hs & _)];
    [unfold empty_graph in Hv; cbn [g_node] in Hv; set_solver|].
  apply Exists_exists. by exists r.
Qed.

Lemma vertex_pos_name routes node_elements G v node_data :
  create_route_graph routes node_elements = Ok G →
  v ∈ dom (g_node G) → node_elements !! v = Some node_data →
  ∃ lon lat, el_lon node_data = Some lon ∧ el_lat node_data = Some lat ∧
    vattr pos G v = Some (lon, lat) ∧
    vattr name G v = Some (node_name v node_data).
Proof.
  intros HG Hv Hnd. rename node_data into nd.
  pose proof (contributed_vertex _ _ _ v HG Hv (elem_of_dom_2 _ _ _ Hnd)) as Hex.
  pose proof (field_process_routes pos (λ v, node_elements !! v ≫= node_pos)
                node_elements eq_refl (pos_add_stop node_elements)
                _ _ _ v HG) as Hpos.
  pose proof (field_process_routes name (λ v, node_name v <$> node_elements !! v)
                node_elements eq_refl (name_add_stop node_elements)
                _ _ _ v HG) as Hname.
  rewrite decide_True in Hpos by done. rewrite decide_True in Hname by done.
  cbn beta in Hpos, Hname. rewrite Hnd in Hpos, Hname.
  apply Exists_exists in Hex as (r & Hr & Hs & _).
  assert (Hready : route_ready node_elements r).
  { apply (proj1 (process_routes_ok_iff node_elements empty_graph routes));
      [by eexists|done]. }
  destruct Hready as [_ Hready].
  destruct (Hready v nd Hs Hnd) as (_ & _ & [lon Hlon] & [lat Hlat]).
  exists lon, lat. split_and!; [done..| |done].
  rewrite Hpos. cbn. unfold node_pos. by rewrite Hlon, Hlat.
Qed.

(** A vertex whose ref is a key of the node mapping carries the position
    ([lon], [lat]) of its node record and, as name, the record's [name]
    tag or else the ref in decimal, whichever routes go through it. *)
Theorem create_route_graph_pos_name
    (routes : list Element) (node_elements : gmap Z Element) (G : Graph) :
  create_route_graph routes node_elements = Ok G →
  ∀ v node_data, v ∈ dom (g_node G) → node_elements !! v = Some node_data →
    ∃ lon lat, el_lon node_data = Some lon ∧ el_lat node_data = Some lat ∧
      vattr pos G v = Some (lon, lat) ∧
      vattr name G v = Some (node_name v node_data).
Proof. intros HG v nd. by apply (vertex_pos_name routes). Qed.

Lemma create_route_graph_pos_name_witness :
  ∃ G, create_route_graph [red_line; green_line] city_nodes = Ok G
       ∧ vattr pos G 3 = Some (1%Q, 3%Q)
       ∧ vattr name G 3 = Some "Mitte"
       ∧ vattr name G 2 = Some "2".
Proof.
  assert (∃ G, create_route_graph [red_line; green_line] city_nodes = Ok G)
    as [G HG] by (vm_compute; eexists; reflexivity).
  exists G. split; [exact HG|].
  assert (Hdom : ∀ v, v ∈ stop_refs green_line → v ∈ dom city_nodes →
                   v ∈ dom (g_node G)).
  { intros v Hs Hn. apply (dom_node_process_routes _ _ _ _ v HG).
    right. exists green_line. split; [|by auto].
    apply list_elem_of_In. right. left. reflexivity. }
  assert (H3 : 3 ∈ dom (g_node G)).
  { apply Hdom; [apply list_elem_of_In; vm_compute; auto|].
    apply elem_of_dom. vm_compute. eexists. reflexivity. }
  assert (H2 : 2 ∈ dom (g_node G)).
  { apply Hdom; [apply list_elem_of_In; vm_compute; auto|].
    apply elem_of_dom. vm_compute. eexists. reflexivity. }
  assert (Hn3 : city_nodes !! 3 =
                  Some (station 3 (Some {[ "name" := "Mitte" ]}) 1 3))
    by (vm_compute; reflexivity).
  assert (Hn2 : city_nodes !! 2 = Some (station 2 (Some ∅) 2 2))
    by (vm_compute; reflexivity).
  destruct (create_route_graph_pos_name _ _ _ HG 3 _ H3 Hn3)
    as (lon & lat & Hlon & Hlat & Hpos & Hname).
  destruct (create_route_graph_pos_name _ _ _ HG 2 _ H2 Hn2)
    as (_ & _ & _ & _ & _ & Hname2).
  injection Hlon as <-. injection Hlat as <-.
  split_and!; assumption.
Defined.

(** A vertex carries either all three attributes or none: all three when
    its ref is a key of the node mapping, none when it is not. *)
Theorem create_route_graph_all_or_nothing
    (routes : list Element) (node_elements : gmap Z Element) (G : Graph) :
  create_route_graph routes node_elements = Ok G →
  ∀ v, v ∈ dom (g_node G) →
    (v ∈ dom node_elements ∧ is_Some (vattr pos G v) ∧
     is_Some (vattr name G v) ∧ is_Some (vattr colour G v))
    ∨ ((v ∉ dom node_elements) ∧ g_node G !! v = Some no_attrs).
Proof.
  intros HG v Hv.
  destruct (decide (v ∈ dom node_elements)) as [Hn|Hn].
  - left. split; [done|].
    pose proof Hn as [nd Hnd]%elem_of_dom.
    destruct (vertex_pos_name _ _ _ v nd HG Hv Hnd)
      as (lon & lat & _ & _ & -> & ->).
    split_and!; [by eexists..|].
    pose proof (contributed_vertex _ _ _ v HG Hv Hn)
      as (r & Hr & Hc)%Exists_exists.
    destruct (last_such (λ r, contributes node_elements r v) routes r Hr Hc)
      as (earlier & route & later & -> & Hroute & Hlater).
    rewrite (colour_process_routes_last _ _ _ _ _ _ v HG Hroute Hlater).
    by eexists.
  - right. split; [done|].
    assert (Hno : ¬ Exists (λ r, contributes node_elements r v) routes).
    { intros (r & _ & _ & ?)%Exists_exists. done. }
    pose proof (field_process_routes pos (λ v, node_elements !! v ≫= node_pos)
                  node_elements eq_refl (pos_add_stop node_elements)
                  _ _ _ v HG) as Hpos.
    pose proof (field_process_routes name (λ v, node_name v <$> node_elements !! v)
                  node_elements eq_refl (name_add_stop node_elements)
                  _ _ _ v HG) as Hname.
    rewrite decide_False in Hpos by done.
    rewrite decide_False in Hname by done.
    assert (Hcol : vattr colour G v = None).
    { rewrite (colour_process_routes_none _ _ _ _ v HG).
      - unfold vattr; cbn. by rewrite lookup_empty.
      - intros r _ [_ ?]. done. }
    apply elem_of_dom in Hv as [[p n c] Hd].
    unfold vattr in Hpos, Hname, Hcol. cbn in Hpos, Hname.
    rewrite Hd, ?lookup_empty in Hpos, Hname, Hcol. cbn in *.
    by subst.
Qed.

Lemma create_route_graph_all_or_nothing_witness :
  ∃ G, create_route_graph [broken_line] broken_line_nodes = Ok G
       ∧ is_Some (vattr colour G 1) ∧ g_node G !! 2 = Some no_attrs.
Proof.
  assert (∃ G, create_route_graph [broken_line] broken_line_nodes = Ok G)
    as [G HG] by (vm_compute; eexists; reflexivity).
  exists G. split; [exact HG|].
  assert (Hdom : ∀ v, v ∈ stop_refs broken_line → v ∈ dom (g_node G)).
  { intros v Hs. apply (dom_node_process_routes _ _ _ _ v HG).
    right. exists broken_line. split; [apply list_elem_of_In; by left|].
    split; [done|]. right. vm_compute. apply le_n. }
  assert (H1 : 1 ∈ dom (g_node G))
    by (apply Hdom, list_elem_of_In; vm_compute; auto).
  assert (H2 : 2 ∈ dom (g_node G))
    by (apply Hdom, list_elem_of_In; vm_compute; auto).
  split.
  - destruct (create_route_graph_all_or_nothing _ _ _ HG 1 H1)
      as [(_ & _ & _ & Hc)|[Hn _]]; [exact Hc|].
    exfalso. apply Hn. apply elem_of_dom. vm_compute. eexists. reflexivity.
  - destruct (create_route_graph_all_or_nothing _ _ _ HG 2 H2)
      as [(Hn & _)|[_ Hno]]; [|exact Hno].
    exfalso. apply elem_of_dom in Hn. vm_compute in Hn.
    destruct Hn as [x Hx]. discriminate Hx.
Defined.

(** ** The order of the routes *)

Lemma adj_ext G G' :
  graph_wf G → graph_wf G' → dom (g_node G) = dom (g_node G') →
  (∀ u v, has_edge G u v ↔ has_edge G' u v) → g_adj G = g_adj G'.
Proof.
  intros [Hd _] [Hd' _] Hdom Hedge. apply map_eq. intros n.
  specialize (Hedge n). unfold has_edge, neighbours in Hedge.
  destruct (g_adj G !! n) as [s|] eqn:Hs, (g_adj G' !! n) as [s'|] eqn:Hs';
    cbn in Hedge.
  - f_equal. by apply set_eq.
  - apply (elem_of_dom_2 (D := gset Z)) in Hs.
    apply (not_elem_of_dom (D := gset Z)) in Hs'. congruence.
  - apply (elem_of_dom_2 (D := gset Z)) in Hs'.
    apply (not_elem_of_dom (D := gset Z)) in Hs. congruence.
  - done.
Qed.

(** Processing the routes in another order gives the same vertices with
    the same positions and names, and the same adjacency; the order can
    only change colours. *)
Theorem create_route_graph_order
    (routes routes' : list Element) (node_elements : gmap Z Element)
    (G : Graph) :
  routes ≡ₚ routes' →
  create_route_graph routes node_elements = Ok G →
  ∃ G', create_route_graph routes' node_elements = Ok G'
        ∧ dom (g_node G') = dom (g_node G)
        ∧ g_adj G' = g_adj G
        ∧ (∀ v, vattr pos G' v = vattr pos G v)
        ∧ (∀ v, vattr name G' v = vattr name G v).
Proof.
  intros Hperm HG.
  assert (Hin : ∀ r, r ∈ routes' ↔ r ∈ routes).
  { intros r. by rewrite Hperm. }
  destruct (proj2 (process_routes_ok_iff node_elements empty_graph routes'))
    as [G' HG'].
  { intros r Hr%Hin.
    apply (proj1 (process_routes_ok_iff node_elements empty_graph routes));
      [by eexists|done]. }
  fold (create_route_graph routes' node_elements) in HG'.
  assert (Hdom : dom (g_node G') = dom (g_node G)).
  { apply set_eq. intros v.
    rewrite (dom_node_process_routes _ _ _ _ v HG),
      (dom_node_process_routes _ _ _ _ v HG').
    by setoid_rewrite Hin. }
  assert (Hex : ∀ v,
            Exists (λ r, contributes node_elements r v) routes' ↔
            Exists (λ r, contributes node_elements r v) routes).
  { intros v. rewrite !Exists_exists. by setoid_rewrite Hin. }
  exists G'. split_and!; [done|done| | |].
  - apply adj_ext; [by eapply create_route_graph_wf..|done|].
    intros u v.
    rewrite (has_edge_process_routes _ _ _ _ u v empty_graph_wf HG),
      (has_edge_process_routes _ _ _ _ u v empty_graph_wf HG').
    by setoid_rewrite Hin.
  - intros v.
    rewrite (field_process_routes pos (λ v, node_elements !! v ≫= node_pos)
               node_elements eq_refl (pos_add_stop node_elements) _ _ _ v HG),
      (field_process_routes pos (λ v, node_elements !! v ≫= node_pos)
         node_elements eq_refl (pos_add_stop node_elements) _ _ _ v HG').
    specialize (Hex v). repeat case_decide; naive_solver.
  - intros v.
    rewrite (field_process_routes name (λ v, node_name v <$> node_elements !! v)
               node_elements eq_refl (name_add_stop node_elements) _ _ _ v HG),
      (field_process_routes name (λ v, node_name v <$> node_elements !! v)
         node_elements eq_refl (name_add_stop node_elements) _ _ _ v HG').
    specialize (Hex v). repeat case_decide; naive_solver.
Qed.

Lemma create_route_graph_order_witness :
  ∃ G G', create_route_graph [red_line; green_line] city_nodes = Ok G
          ∧ create_route_graph [green_line; red_line] city_nodes = Ok G'
          ∧ g_adj G' = g_adj G
          ∧ vattr colour G 3 = Some "green"
          ∧ vattr colour G' 3 = Some "red".
Proof.
  assert (∃ G, create_route_graph [red_line; green_line] city_nodes = Ok G)
    as [G HG] by (vm_compute; eexists; reflexivity).
  destruct (create_route_graph_order [red_line; green_line]
              [green_line; red_line] city_nodes G (perm_swap _ _ _) HG)
    as (G' & HG' & _ & Hadj & _ & _).
  exists G, G'. split_and!; [exact HG|exact HG'|exact Hadj| |].
  - vm_compute in HG. injection HG as <-. vm_compute. reflexivity.
  - vm_compute in HG'. injection HG' as <-. vm_compute. reflexivity.
Defined.

(** ** Counting edges *)

Lemma length_bind_sum {A B} (f : A → list B) (l : list A) :
  length (l ≫= f) = sum_list ((λ x, length (f x)) <$> l).
Proof.
  induction l as [|x l IH]; [done|].
  cbn. by rewrite length_app, IH.
Qed.

(** The returned graph has at most as many edges as the routes have
    consecutive pairs of stop members. *)
Theorem create_route_graph_edge_count
    (routes : list Element) (node_elements : gmap Z Element) (G : Graph) :
  create_route_graph routes node_elements = Ok G →
  (number_of_edges G ≤
     sum_list ((λ route, length (stop_refs route) - 1) <$> routes))%nat.
Proof.
  intros HG.
  replace (sum_list ((λ route, length (stop_refs route) - 1)%nat <$> routes))
    with (length (routes ≫= route_pairs)).
  2:{ rewrite length_bind_sum. f_equal. apply list_fmap_ext.
      intros _ r _. apply adjacent_pairs_length. }
  apply number_of_edges_le. intros u v Huv%edges_has_edge.
  apply (has_edge_process_routes _ _ _ _ u v empty_graph_wf HG) in Huv
    as [Huv|(r & Hr & Hp)]; [by apply empty_graph_no_edge in Huv|].
  rewrite !list_elem_of_bind. destruct Hp; [left|right]; eauto.
Qed.

Lemma create_route_graph_edge_count_witness :
  ∃ G, create_route_graph [red_line; green_line; plain_line] city_nodes = Ok G
       ∧ (number_of_edges G ≤ 3)%nat.
Proof.
  assert (∃ G, create_route_graph [red_line; green_line; plain_line]
                 city_nodes = Ok G)
    as [G HG] by (vm_compute; eexists; reflexivity).
  exists G. split; [exact HG|].
  exact (create_route_graph_edge_count _ _ _ HG).
Defined.

(** ** Routes without stop members *)

Lemma process_route_stopless node_elements G route :
  is_Some (el_members route) → stop_refs route = [] →
  process_route node_elements G route = Ok G.
Proof.
  intros [members Hm] Hs. unfold process_route, stop_refs in *.
  rewrite Hm in *. cbn in *. apply fmap_nil_inv in Hs. by rewrite Hs.
Qed.

(** A route that has [members] but no stop-role member is passed over:
    it adds nothing and raises nothing, even when it has no [tags]. *)
Theorem create_route_graph_skips_stopless
    (routes : list Element) (node_elements : gmap Z Element) :
  (∀ route, route ∈ routes → is_Some (el_members route)) →
  create_route_graph routes node_elements =
    create_route_graph (filter (λ route, stop_refs route ≠ []) routes)
      node_elements.
Proof.
  unfold create_route_graph. generalize empty_graph.
  induction routes as [|r routes IH]; intros G Hm; [done|].
  rewrite filter_cons. case_decide as Hs.
  - cbn [process_routes].
    destruct (process_route node_elements G r) as [G1|]; [|done].
    cbn. apply IH. intros r' Hr'. apply Hm. set_solver.
  - cbn [process_routes].
    rewrite process_route_stopless; [|apply Hm; set_solver|done].
    cbn. apply IH. intros r' Hr'. apply Hm. set_solver.
Qed.

Lemma create_route_graph_skips_stopless_witness :
  create_route_graph
    [ {| el_type := "relation"; el_id := 20; el_tags := None;
         el_lat := None; el_lon := None;
         el_members := Some [ {| mem_ref := 1; mem_role := "platform" |} ] |};
      broken_line ] broken_line_nodes =
  create_route_graph [broken_line] broken_line_nodes.
Proof.
  apply (create_route_graph_skips_stopless
           [ {| el_type := "relation"; el_id := 20; el_tags := None;
                el_lat := None; el_lon := None;
                el_members := Some [ {| mem_ref := 1; mem_role := "platform" |} ] |};
             broken_line ] broken_line_nodes).
  intros r Hr. apply list_elem_of_In in Hr.
  destruct Hr as [<-|[<-|[]]]; eexists; reflexivity.
Defined.

(** ** More on the classifier *)

Lemma node_comprehension_lookup l k element :
  node_comprehension l !! k = Some element →
  element ∈ l ∧ el_type element = "node" ∧ el_id element = k.
Proof.
  induction l as [|e l IH] using rev_ind.
  - unfold node_comprehension; cbn. by rewrite lookup_empty.
  - rewrite node_comprehension_snoc. case_bool_decide as Hty.
    + destruct (decide (el_id e = k)) as [<-|Hne].
      * rewrite lookup_insert_eq. intros [= <-]. set_solver.
      * rewrite lookup_insert_ne by done. intros H%IH. set_solver.
    + intros H%IH. set_solver.
Qed.

(** Whatever [extract_node_elements] stores under a key is an element of
    the payload of type [node] whose id is that key. *)
Theorem extract_node_elements_values
    (osm_data : OsmData) (k : Z) (element : Element) :
  extract_node_elements osm_data !! k = Some element →
  element ∈ elements_of osm_data ∧ el_type element = "node" ∧
  el_id element = k.
Proof. apply node_comprehension_lookup. Qed.

Lemma extract_node_elements_values_witness :
  station 1 (Some {[ "name" := "Zoo" ]}) 5 5 ∈ elements_of small_payload
  ∧ el_type (station 1 (Some {[ "name" := "Zoo" ]}) 5 5) = "node"
  ∧ el_id (station 1 (Some {[ "name" := "Zoo" ]}) 5 5) = 1.
Proof.
  apply (extract_node_elements_values small_payload 1
           (station 1 (Some {[ "name" := "Zoo" ]}) 5 5)).
  vm_compute. reflexivity.
Defined.

Lemma node_comprehension_app l1 l2 :
  node_comprehension (l1 ++ l2) = node_comprehension l2 ∪ node_comprehension l1.
Proof.
  induction l2 as [|e l2 IH] using rev_ind.
  - rewrite app_nil_r. unfold node_comprehension at 2; cbn.
    by rewrite (left_id_L ∅ (∪)).
  - rewrite app_assoc, !node_comprehension_snoc.
    case_bool_decide; [|done]. by rewrite IH, insert_union_l.
Qed.

(** For a payload made of two parts, the node mapping is that of the
    second part completed by that of the first, and the routes are those
    of the first part followed by those of the second. *)
Theorem classifiers_of_two_parts (first second : list Element) :
  extract_node_elements {| elements_of := first ++ second |} =
    extract_node_elements {| elements_of := second |} ∪
    extract_node_elements {| elements_of := first |}
  ∧ extract_route_elements {| elements_of := first ++ second |} =
      extract_route_elements {| elements_of := first |} ++
      extract_route_elements {| elements_of := second |}.
Proof.
  unfold extract_node_elements, extract_route_elements; cbn. split.
  - apply node_comprehension_app.
  - by rewrite !route_comprehension_filter, filter_app.
Qed.

(** Classifying the routes again changes nothing, and the type of an
    element plays no part: a node with a [route] tag is returned as a
    route. *)
Theorem extract_route_elements_again (osm_data : OsmData) :
  extract_route_elements
    {| elements_of := extract_route_elements osm_data |} =
    extract_route_elements osm_data
  ∧ ∀ element tags, element ∈ elements_of osm_data →
      el_type element = "node" → el_tags element = Some tags →
      "route" ∈ dom tags →
      element ∈ extract_route_elements osm_data ∧
      el_id element ∈ dom (extract_node_elements osm_data).
Proof.
  unfold extract_route_elements, extract_node_elements; cbn.
  rewrite !route_comprehension_filter. split.
  - induction (elements_of osm_data) as [|e l IH]; [done|].
    rewrite filter_cons. case_decide; [|done].
    rewrite filter_cons, decide_True by done. by rewrite IH.
  - intros e tags Hin Hty Ht Hr. split.
    + apply list_elem_of_filter. split; [|done]. by exists tags.
    + apply node_comprehension_dom. by exists e.
Qed.

(** ** More on the map *)

Lemma marker_of_marker_at G v p :
  marker_of (get_node_attributes G name) (get_node_attributes G colour) (v, p)
  = marker_at G v p.
Proof.
  unfold marker_of, marker_at. by rewrite !lookup_get_node_attributes.
Qed.

(** The map has one marker for each vertex that carries a position, at
    (lat, lon), with the vertex's colour or else blue and, as tooltip,
    its name or else [Node] and the id; vertices without a position get
    no marker. *)
Theorem create_folium_map_markers (G : Graph) (zoom_start : Z) (m : FoliumMap) :
  create_folium_map G zoom_start = Ok m →
  (∀ marker, marker ∈ map_markers m ↔
     ∃ v p, vattr pos G v = Some p ∧ marker = marker_at G v p)
  ∧ (∀ vs : list Z, NoDup vs → (∀ v, v ∈ vs ↔ is_Some (vattr pos G v)) →
       length (map_markers m) = length vs).
Proof.
  intros Hm. unfold create_folium_map in Hm.
  case_decide; [done|]. injection Hm as <-. cbn [map_markers]. split.
  - intros marker. unfold items. rewrite list_elem_of_fmap. split.
    + intros ([v p] & -> & Hin%elem_of_map_to_list).
      rewrite lookup_get_node_attributes in Hin.
      exists v, p. by rewrite marker_of_marker_at.
    + intros (v & p & Hv & ->). exists (v, p).
      rewrite marker_of_marker_at, elem_of_map_to_list.
      by rewrite lookup_get_node_attributes.
  - intros vs Hnd Hvs. unfold items. rewrite length_fmap.
    transitivity (length (values (get_node_attributes G pos))).
    { unfold values. by rewrite length_fmap. }
    rewrite (Permutation_length (positions_values G vs Hnd Hvs)).
    by rewrite length_fmap.
Qed.

Lemma create_folium_map_markers_witness :
  ∃ m, create_folium_map two_point_graph 12 = Ok m
       ∧ {| cm_location := (2%Q, 2%Q); cm_radius := 6; cm_color := "blue";
            cm_fill := true; cm_fill_color := "blue";
            cm_tooltip := "Node 2" |} ∈ map_markers m.
Proof.
  assert (∃ m, create_folium_map two_point_graph 12 = Ok m) as [m Hm]
    by (vm_compute; eexists; reflexivity).
  exists m. split; [exact Hm|].
  destruct (create_folium_map_markers _ _ _ Hm) as [Hin _].
  apply Hin. exists 2, (2%Q, 2%Q). split; vm_compute; reflexivity.
Defined.






(** ** From the routes to the map *)

Section routes_to_map.
Context (routes : list Element) (node_elements : gmap Z Element) (G : Graph).
Context (HG : create_route_graph routes node_elements = Ok G).

Lemma vertex_pos_iff v p :
  vattr pos G v = Some p ↔
  ∃ route node_data, route ∈ routes ∧ v ∈ stop_refs route ∧
    node_elements !! v = Some node_data ∧ node_pos node_data = Some p.
Proof.
  rewrite (field_process_routes pos (λ v, node_elements !! v ≫= node_pos)
             node_elements eq_refl (pos_add_stop node_elements) _ _ _ v HG).
  case_decide as Hex.
  - apply Exists_exists in Hex as (r & Hr & Hs & [nd Hnd]%elem_of_dom).
    rewrite Hnd. cbn. split; [by exists r, nd|].
    intros (_ & nd' & _ & _ & Hnd' & Hp). congruence.
  - unfold vattr; cbn. rewrite lookup_empty. cbn. split; [done|].
    intros (r & nd & Hr & Hs & Hnd & _). destruct Hex.
    apply Exists_exists. exists r. split; [done|].
    split; [done|]. by eapply elem_of_dom_2.
Qed.

Lemma contributed_pos route v :
  route ∈ routes → contributes node_elements route v →
  ∃ node_data p, node_elements !! v = Some node_data ∧
    node_pos node_data = Some p ∧ vattr pos G v = Some p.
Proof.
  intros Hr [Hs [nd Hnd]%elem_of_dom].
  assert (Hready : route_ready node_elements route).
  { apply (proj1 (process_routes_ok_iff node_elements empty_graph routes));
      [by eexists|done]. }
  destruct Hready as [_ Hready].
  destruct (Hready v nd Hs Hnd) as (_ & _ & [lon Hlon] & [lat Hlat]).
  exists nd, (lon, lat).
  assert (Hp : node_pos nd = Some (lon, lat)).
  { unfold node_pos. by rewrite Hlon, Hlat. }
  split_and!; [done..|]. apply vertex_pos_iff. by exists route, nd.
Qed.

End routes_to_map.



Lemma map_markers_elem G zoom_start m marker :
  create_folium_map G zoom_start = Ok m →
  marker ∈ map_markers m ↔
    ∃ v p, vattr pos G v = Some p ∧ marker = marker_at G v p.
Proof.
  intros Hm. unfold create_folium_map in Hm.
  case_decide; [done|]. injection Hm as <-. cbn [map_markers].
  unfold items. rewrite list_elem_of_fmap. split.
  - intros ([v p] & -> & Hin%elem_of_map_to_list).
    rewrite lookup_get_node_attributes in Hin.
    exists v, p. by rewrite marker_of_marker_at.
  - intros (v & p & Hv & ->). exists (v, p).
    rewrite marker_of_marker_at, elem_of_map_to_list.
    by rewrite lookup_get_node_attributes.
Qed.

Lemma map_polylines_elem G zoom_start m line :
  create_folium_map G zoom_start = Ok m →
  line ∈ map_polylines m ↔
    ∃ u v pu pv, (u, v) ∈ edges G ∧ vattr pos G u = Some pu ∧
      vattr pos G v = Some pv ∧ line = line_between pu pv.
Proof.
  intros Hm. unfold create_folium_map in Hm.
  case_decide; [done|]. injection Hm as <-. cbn [map_polylines].
  rewrite list_elem_of_bind. setoid_rewrite line_of_spec.
  setoid_rewrite lookup_get_node_attributes. split.
  - intros ([u v] & (pu & pv & ? & ? & ?) & ?). by exists u, v, pu, pv.
  - intros (u & v & pu & pv & ? & ? & ? & ?). exists (u, v). eauto 10.
Qed.

(** On the map of the builder's graph, the markers are exactly those of
    the stop refs that are keys of the node mapping: at the (lat, lon) of
    the node record, with the record's name or the ref in decimal as
    tooltip, in the colour of the last route through the stop.  The
    renderer's own fallbacks, blue and [Node] with the id, are not
    used. *)
Theorem routes_to_map_markers
    (routes : list Element) (node_elements : gmap Z Element) (G : Graph)
    (zoom_start : Z) (m : FoliumMap) :
  create_route_graph routes node_elements = Ok G →
  create_folium_map G zoom_start = Ok m →
  ∀ marker, marker ∈ map_markers m ↔
    ∃ v node_data lon lat earlier route later,
      routes = earlier ++ route :: later ∧
      contributes node_elements route v ∧
      (∀ r, r ∈ later → ¬ contributes node_elements r v) ∧
      node_elements !! v = Some node_data ∧
      el_lon node_data = Some lon ∧ el_lat node_data = Some lat ∧
      marker = stop_marker v node_data lon lat route.
Proof.
  intros HG Hm marker. rewrite (map_markers_elem _ _ _ _ Hm).
  assert (Hat : ∀ v nd lon lat earlier route later,
            routes = earlier ++ route :: later →
            contributes node_elements route v →
            (∀ r, r ∈ later → ¬ contributes node_elements r v) →
            node_elements !! v = Some nd →
            el_lon nd = Some lon → el_lat nd = Some lat →
            vattr pos G v = Some (lon, lat) ∧
            marker_at G v (lon, lat) = stop_marker v nd lon lat route).
  { intros v nd lon lat earlier route later Heq Hc Hlater Hnd Hlon Hlat.
    assert (Hpos : vattr pos G v = Some (lon, lat)).
    { apply (vertex_pos_iff _ _ _ HG). exists route, nd.
      split_and!; [rewrite Heq; set_solver|apply Hc|done|].
      unfold node_pos. by rewrite Hlon, Hlat. }
    split; [done|].
    assert (Hv : v ∈ dom (g_node G)).
    { apply elem_of_dom. unfold vattr in Hpos.
      destruct (g_node G !! v); [by eexists|done]. }
    destruct (vertex_pos_name _ _ _ v nd HG Hv Hnd) as (_ & _ & _ & _ & _ & Hname).
    subst routes.
    pose proof (colour_process_routes_last _ _ _ _ _ _ v HG Hc Hlater) as Hcol.
    unfold marker_at, stop_marker. rewrite Hname, Hcol. cbn.
    by rewrite route_colour_spec. }
  split.
  - intros (v & p & Hp & ->).
    pose proof Hp as (r & nd & Hr & Hs & Hnd & Hnp)%(vertex_pos_iff _ _ _ HG).
    assert (Hc : contributes node_elements r v).
    { split; [done|]. by eapply elem_of_dom_2. }
    destruct (last_such (λ r, contributes node_elements r v) routes r Hr Hc)
      as (earlier & route & later & Heq & Hroute & Hlater).
    unfold node_pos in Hnp.
    destruct (el_lon nd) as [lon|] eqn:Hlon; [|done].
    destruct (el_lat nd) as [lat|] eqn:Hlat; [|done].
    cbn in Hnp. injection Hnp as <-.
    exists v, nd, lon, lat, earlier, route, later.
    split_and!; [done..|].
    by apply (Hat v nd lon lat earlier route later).
  - intros (v & nd & lon & lat & earlier & route & later
            & Heq & Hc & Hlater & Hnd & Hlon & Hlat & ->).
    destruct (Hat v nd lon lat earlier route later) as [Hpos Hmk]; [done..|].
    exists v, (lon, lat). by rewrite Hmk.
Qed.

(** On the map of the builder's graph, every line joins two consecutive
    stop members of a route whose refs are both keys of the node mapping,
    at the coordinates of their node records, and every such pair has its
    line; a pair with a ref outside the node mapping has none. *)
Theorem routes_to_map_lines
    (routes : list Element) (node_elements : gmap Z Element) (G : Graph)
    (zoom_start : Z) (m : FoliumMap) :
  create_route_graph routes node_elements = Ok G →
  create_folium_map G zoom_start = Ok m →
  (∀ line, line ∈ map_polylines m →
     ∃ route u v nu nv pu pv, route ∈ routes ∧
       ((u, v) ∈ route_pairs route ∨ (v, u) ∈ route_pairs route) ∧
       node_elements !! u = Some nu ∧ node_elements !! v = Some nv ∧
       node_pos nu = Some pu ∧ node_pos nv = Some pv ∧
       line = line_between pu pv)
  ∧ (∀ route u v nu nv, route ∈ routes → (u, v) ∈ route_pairs route →
       node_elements !! u = Some nu → node_elements !! v = Some nv →
       ∃ pu pv, node_pos nu = Some pu ∧ node_pos nv = Some pv ∧
         (line_between pu pv ∈ map_polylines m ∨
          line_between pv pu ∈ map_polylines m)).
Proof.
  intros HG Hm. split.
  - intros line (u & v & pu & pv & Huv%edges_has_edge & Hu & Hv & ->)
      %(map_polylines_elem _ _ _ _ Hm).
    apply (has_edge_process_routes _ _ _ _ u v empty_graph_wf HG) in Huv
      as [Huv|(route & Hr & Hp)]; [by apply empty_graph_no_edge in Huv|].
    apply (vertex_pos_iff _ _ _ HG) in Hu as (_ & nu & _ & _ & Hnu & Hpu).
    apply (vertex_pos_iff _ _ _ HG) in Hv as (_ & nv & _ & _ & Hnv & Hpv).
    by exists route, u, v, nu, nv, pu, pv.
  - intros route u v nu nv Hr Hp Hnu Hnv.
    destruct (adjacent_pairs_elem _ _ _ Hp) as [Hus Hvs].
    destruct (contributed_pos _ _ _ HG route u Hr) as (nu' & pu & Hnu' & Hpu & Hu).
    { split; [done|]. by eapply elem_of_dom_2. }
    destruct (contributed_pos _ _ _ HG route v Hr) as (nv' & pv & Hnv' & Hpv & Hv).
    { split; [done|]. by eapply elem_of_dom_2. }
    assert (nu' = nu) as -> by congruence.
    assert (nv' = nv) as -> by congruence.
    exists pu, pv. split_and!; [done..|].
    assert (Huv : has_edge G u v).
    { apply (has_edge_process_routes _ _ _ _ u v empty_graph_wf HG).
      right. exists route. auto. }
    rewrite !(map_polylines_elem _ _ _ _ Hm).
    destruct (has_edge_edges _ _ _ (create_route_graph_wf _ _ _ HG) Huv);
      [left|right]; eauto 10.
Qed.

Lemma city_graph_and_map :
  ∃ G m, create_route_graph [red_line; green_line] city_nodes = Ok G
         ∧ create_folium_map G 12 = Ok m.
Proof. vm_compute. eexists _, _. split; reflexivity. Qed.

Lemma routes_to_map_markers_witness :
  ∃ G m, create_route_graph [red_line; green_line] city_nodes = Ok G
         ∧ create_folium_map G 12 = Ok m
         ∧ {| cm_location := (3%Q, 1%Q); cm_radius := 6; cm_color := "green";
              cm_fill := true; cm_fill_color := "green";
              cm_tooltip := "Mitte" |} ∈ map_markers m.
Proof.
  destruct city_graph_and_map as (G & m & HG & Hm).
  exists G, m. split_and!; [exact HG|exact Hm|].
  apply (routes_to_map_markers _ _ _ _ _ HG Hm).
  exists 3, (station 3 (Some {[ "name" := "Mitte" ]}) 1 3), 1%Q, 3%Q,
    [red_line], green_line, [].
  split_and!.
  - reflexivity.
  - split; [apply list_elem_of_In; vm_compute; auto|].
    apply elem_of_dom. vm_compute. eexists. reflexivity.
  - intros r Hr. apply list_elem_of_In in Hr. destruct Hr.
  - vm_compute. reflexivity.
  - reflexivity.
  - reflexivity.
  - vm_compute. reflexivity.
Defined.

Lemma routes_to_map_lines_witness :
  ∃ G m, create_route_graph [red_line; green_line] city_nodes = Ok G
         ∧ create_folium_map G 12 = Ok m
         ∧ (line_between (0%Q, 0%Q) (1%Q, 3%Q) ∈ map_polylines m ∨
            line_between (1%Q, 3%Q) (0%Q, 0%Q) ∈ map_polylines m).
Proof.
  destruct city_graph_and_map as (G & m & HG & Hm).
  exists G, m. split_and!; [exact HG|exact Hm|].
  destruct (proj2 (routes_to_map_lines _ _ _ _ _ HG Hm) red_line 1 3
              (station 1 (Some {[ "name" := "Zoo" ]}) 0 0)
              (station 3 (Some {[ "name" := "Mitte" ]}) 1 3))
    as (pu & pv & Hpu & Hpv & Hor).
  - apply list_elem_of_In. left. reflexivity.
  - apply list_elem_of_In. vm_compute. left. reflexivity.
  - vm_compute. reflexivity.
  - vm_compute. reflexivity.
  - vm_compute in Hpu, Hpv. injection Hpu as <-. injection Hpv as <-.
    exact Hor.
Defined.

(** ** The entry point *)

(** [main] raises [HTTPError] exactly for the statuses 400 to 599; for any
    other status than 200 the fetch returns [None] and [main] fails with
    a [TypeError] when it subscripts it; the core runs for 200 only. *)
Theorem main_by_status (response : Response OsmData) :
  (∀ status, main response = Raises (HTTPError status) ↔
     status = status_code response ∧ 400 ≤ status < 600)
  ∧ (main response = Raises none_subscript ↔
       status_code response ≠ 200 ∧ ¬ (400 ≤ status_code response < 600))
  ∧ (∀ m, main response = Returns m → status_code response = 200)
  ∧ (∀ e, main response = Raises (CoreError e) → status_code response = 200).
Proof.
  unfold main, extract_osm_geodata, raise_for_status, json.
  destruct response as [status body]; cbn.
  repeat case_decide; destruct body as [d|]; cbn;
    try (destruct (create_route_graph _ _) as [G|]; cbn;
         [destruct (create_folium_map G 12); cbn|]);
    split_and!; intros; try split; intros; destruct_and?; simplify_eq;
    try done; lia.
Qed.


Lemma main_by_status_witness :
  main {| status_code := 204; json_body := None |} = Raises none_subscript
  ∧ main {| status_code := 503; json_body := None |} = Raises (HTTPError 503).
Proof.
  split.
  - apply (main_by_status {| status_code := 204; json_body := None |}).
    cbn. split; [discriminate|lia].
  - apply (main_by_status {| status_code := 503; json_body := None |}).
    cbn. split; [reflexivity|lia].
Defined.

